(** * LingoFlow (Oliflow): a model of [src/types.ts] and [src/App.tsx]

    The development embeds the pure parts of the React component [App]:
    the offline phrase book and its lookup, the language selectors, the
    history list and its persistence, the entry of [startSession] and the
    playback scheduler of the live session.  Strings are JavaScript
    strings, that is, sequences of UTF-16 code units. *)

From stdpp Require Import gmap strings list fin_maps.
From Stdlib Require Import ZArith Lia Ascii DecimalN DecimalZ.

#[local] Open Scope N_scope.

(** ** JavaScript strings *)

(** A JavaScript string is a sequence of UTF-16 code units. *)
Abbreviation jsstring := (list N).

(** Literals of this file are written as UTF-8 text, as the sources are;
    [utf16] turns the bytes of a literal into code units (a code point
    above U+FFFF becomes a surrogate pair). *)
Fixpoint utf16_of_bytes (bs : list N) : jsstring :=
  match bs with
  | [] => []
  | b :: rest =>
    if b <? 128 then b :: utf16_of_bytes rest
    else match rest with
      | [] => []
      | c :: rest1 =>
        if b <? 224 then ((b - 192) * 64 + (c - 128)) :: utf16_of_bytes rest1
        else match rest1 with
          | [] => []
          | d :: rest2 =>
            if b <? 240
            then ((b - 224) * 4096 + (c - 128) * 64 + (d - 128))
                   :: utf16_of_bytes rest2
            else match rest2 with
              | [] => []
              | e :: rest3 =>
                let cp := (b - 240) * 262144 + (c - 128) * 4096
                          + (d - 128) * 64 + (e - 128) in
                (55296 + (cp - 65536) / 1024)
                  :: (56320 + (cp - 65536) mod 1024)
                  :: utf16_of_bytes rest3
              end
          end
      end
  end.

Definition utf16 (s : string) : jsstring :=
  utf16_of_bytes (N_of_ascii <$> String.list_ascii_of_string s).

(** The code units the handlers build strings from. *)
Definition hyphen : N := 45.
Definition dquote : N := 34.

(** ** [String.prototype.toLowerCase] *)

(** ECMA-262 has [toLowerCase] turn the string into code points
    (StringToCodePoints), map them by the toLowercase algorithm of the
    Unicode Default Case Conversion, with the mappings of UnicodeData.txt
    and the locale-insensitive ones of SpecialCasing.txt, and turn the
    result into code units again (CodePointsToString).  The tables below
    are those of Unicode 14.0. *)

Definition is_high_surrogate (c : N) : bool := (55296 <=? c) && (c <=? 56319).
Definition is_low_surrogate (c : N) : bool := (56320 <=? c) && (c <=? 57343).

(** A high surrogate directly followed by a low one is one code point;
    every other code unit is a code point of its own. *)
Fixpoint StringToCodePoints (s : jsstring) : list N :=
  match s with
  | [] => []
  | lead :: s1 =>
    match s1 with
    | trail :: s2 =>
      if is_high_surrogate lead && is_low_surrogate trail
      then (65536 + (lead - 55296) * 1024 + (trail - 56320))
             :: StringToCodePoints s2
      else lead :: StringToCodePoints s1
    | [] => [lead]
    end
  end.

Definition UTF16EncodeCodePoint (cp : N) : jsstring :=
  if (65536 <=? cp) && (cp <=? 1114111)
  then [55296 + (cp - 65536) / 1024; 56320 + (cp - 65536) mod 1024]
  else [cp].

Definition CodePointsToString (cps : list N) : jsstring :=
  cps ≫= UTF16EncodeCodePoint.

(** The simple lowercase mappings of UnicodeData.txt.  An entry
    [(first, count, step, lower)] stands for the [count] code points
    [first], [first + step], ..., mapped to [lower], [lower + step],
    ... in this order. *)
Definition lowercase_runs : list (N * N * N * N) := [
  (65, 26, 1, 97); (192, 23, 1, 224); (216, 7, 1, 248); (256, 24, 2, 257);
  (306, 3, 2, 307); (313, 8, 2, 314); (330, 23, 2, 331); (376, 1, 1, 255);
  (377, 3, 2, 378); (385, 1, 1, 595); (386, 2, 2, 387); (390, 1, 1, 596);
  (391, 1, 1, 392); (393, 2, 1, 598); (395, 1, 1, 396); (398, 1, 1, 477);
  (399, 1, 1, 601); (400, 1, 1, 603); (401, 1, 1, 402); (403, 1, 1, 608);
  (404, 1, 1, 611); (406, 1, 1, 617); (407, 1, 1, 616); (408, 1, 1, 409);
  (412, 1, 1, 623); (413, 1, 1, 626); (415, 1, 1, 629); (416, 3, 2, 417);
  (422, 1, 1, 640); (423, 1, 1, 424); (425, 1, 1, 643); (428, 1, 1, 429);
  (430, 1, 1, 648); (431, 1, 1, 432); (433, 2, 1, 650); (435, 2, 2, 436);
  (439, 1, 1, 658); (440, 1, 1, 441); (444, 1, 1, 445); (452, 1, 1, 454);
  (453, 1, 1, 454); (455, 1, 1, 457); (456, 1, 1, 457); (458, 1, 1, 460);
  (459, 9, 2, 460); (478, 9, 2, 479); (497, 1, 1, 499); (498, 2, 2, 499);
  (502, 1, 1, 405); (503, 1, 1, 447); (504, 20, 2, 505); (544, 1, 1, 414);
  (546, 9, 2, 547); (570, 1, 1, 11365); (571, 1, 1, 572); (573, 1, 1, 410);
  (574, 1, 1, 11366); (577, 1, 1, 578); (579, 1, 1, 384); (580, 1, 1, 649);
  (581, 1, 1, 652); (582, 5, 2, 583); (880, 2, 2, 881); (886, 1, 1, 887);
  (895, 1, 1, 1011); (902, 1, 1, 940); (904, 3, 1, 941); (908, 1, 1, 972);
  (910, 2, 1, 973); (913, 17, 1, 945); (932, 8, 1, 964); (975, 1, 1, 983);
  (984, 12, 2, 985); (1012, 1, 1, 952); (1015, 1, 1, 1016);
  (1017, 1, 1, 1010); (1018, 1, 1, 1019); (1021, 3, 1, 891);
  (1024, 16, 1, 1104); (1040, 32, 1, 1072); (1120, 17, 2, 1121);
  (1162, 27, 2, 1163); (1216, 1, 1, 1231); (1217, 7, 2, 1218);
  (1232, 48, 2, 1233); (1329, 38, 1, 1377); (4256, 38, 1, 11520);
  (4295, 1, 1, 11559); (4301, 1, 1, 11565); (5024, 80, 1, 43888);
  (5104, 6, 1, 5112); (7312, 43, 1, 4304); (7357, 3, 1, 4349);
  (7680, 75, 2, 7681); (7838, 1, 1, 223); (7840, 48, 2, 7841);
  (7944, 8, 1, 7936); (7960, 6, 1, 7952); (7976, 8, 1, 7968);
  (7992, 8, 1, 7984); (8008, 6, 1, 8000); (8025, 4, 2, 8017);
  (8040, 8, 1, 8032); (8072, 8, 1, 8064); (8088, 8, 1, 8080);
  (8104, 8, 1, 8096); (8120, 2, 1, 8112); (8122, 2, 1, 8048);
  (8124, 1, 1, 8115); (8136, 4, 1, 8050); (8140, 1, 1, 8131);
  (8152, 2, 1, 8144); (8154, 2, 1, 8054); (8168, 2, 1, 8160);
  (8170, 2, 1, 8058); (8172, 1, 1, 8165); (8184, 2, 1, 8056);
  (8186, 2, 1, 8060); (8188, 1, 1, 8179); (8486, 1, 1, 969);
  (8490, 1, 1, 107); (8491, 1, 1, 229); (8498, 1, 1, 8526);
  (8544, 16, 1, 8560); (8579, 1, 1, 8580); (9398, 26, 1, 9424);
  (11264, 48, 1, 11312); (11360, 1, 1, 11361); (11362, 1, 1, 619);
  (11363, 1, 1, 7549); (11364, 1, 1, 637); (11367, 3, 2, 11368);
  (11373, 1, 1, 593); (11374, 1, 1, 625); (11375, 1, 1, 592);
  (11376, 1, 1, 594); (11378, 1, 1, 11379); (11381, 1, 1, 11382);
  (11390, 2, 1, 575); (11392, 50, 2, 11393); (11499, 2, 2, 11500);
  (11506, 1, 1, 11507); (42560, 23, 2, 42561); (42624, 14, 2, 42625);
  (42786, 7, 2, 42787); (42802, 31, 2, 42803); (42873, 2, 2, 42874);
  (42877, 1, 1, 7545); (42878, 5, 2, 42879); (42891, 1, 1, 42892);
  (42893, 1, 1, 613); (42896, 2, 2, 42897); (42902, 10, 2, 42903);
  (42922, 1, 1, 614); (42923, 1, 1, 604); (42924, 1, 1, 609);
  (42925, 1, 1, 620); (42926, 1, 1, 618); (42928, 1, 1, 670);
  (42929, 1, 1, 647); (42930, 1, 1, 669); (42931, 1, 1, 43859);
  (42932, 8, 2, 42933); (42948, 1, 1, 42900); (42949, 1, 1, 642);
  (42950, 1, 1, 7566); (42951, 2, 2, 42952); (42960, 1, 1, 42961);
  (42966, 2, 2, 42967); (42997, 1, 1, 42998); (65313, 26, 1, 65345);
  (66560, 40, 1, 66600); (66736, 36, 1, 66776); (66928, 19, 2, 66967);
  (66929, 5, 2, 66968); (66941, 7, 2, 66980); (66957, 3, 2, 66996);
  (66965, 1, 1, 67004); (68736, 51, 1, 68800); (71840, 32, 1, 71872);
  (93760, 32, 1, 93792); (125184, 34, 1, 125218)
].

Definition run_pairs (r : N * N * N * N) : list (N * N) :=
  let '(first, count, step, lower) := r in
  (λ i, (first + N.of_nat i * step, lower + N.of_nat i * step))
    <$> seq 0 (N.to_nat count).

Definition simple_lowercase : list (N * N) :=
  Eval vm_compute in lowercase_runs ≫= run_pairs.

Fixpoint assoc (c : N) (table : list (N * N)) : option N :=
  match table with
  | [] => None
  | (k, v) :: table' => if c =? k then Some v else assoc c table'
  end.

(** The lowercase of one code point, the context rule of the capital
    sigma aside.  SpecialCasing.txt maps U+0130 to U+0069 U+0307 whatever
    the locale; a code point without a mapping stays. *)
Definition lower_code_point (c : N) : list N :=
  if c =? 304 then [105; 775]
  else match assoc c simple_lowercase with
       | Some l => [l]
       | None => [c]
       end.

(** The properties Cased and Case_Ignorable of DerivedCoreProperties.txt,
    as ranges of code points. *)
Definition Cased_ranges : list (N * N) := [
  (65, 90); (97, 122); (170, 170); (181, 181); (186, 186); (192, 214);
  (216, 246); (248, 442); (444, 447); (452, 659); (661, 696); (704, 705);
  (736, 740); (837, 837); (880, 883); (886, 887); (890, 893); (895, 895);
  (902, 902); (904, 906); (908, 908); (910, 929); (931, 1013); (1015, 1153);
  (1162, 1327); (1329, 1366); (1376, 1416); (4256, 4293); (4295, 4295);
  (4301, 4301); (4304, 4346); (4349, 4351); (5024, 5109); (5112, 5117);
  (7296, 7304); (7312, 7354); (7357, 7359); (7424, 7615); (7680, 7957);
  (7960, 7965); (7968, 8005); (8008, 8013); (8016, 8023); (8025, 8025);
  (8027, 8027); (8029, 8029); (8031, 8061); (8064, 8116); (8118, 8124);
  (8126, 8126); (8130, 8132); (8134, 8140); (8144, 8147); (8150, 8155);
  (8160, 8172); (8178, 8180); (8182, 8188); (8305, 8305); (8319, 8319);
  (8336, 8348); (8450, 8450); (8455, 8455); (8458, 8467); (8469, 8469);
  (8473, 8477); (8484, 8484); (8486, 8486); (8488, 8488); (8490, 8493);
  (8495, 8500); (8505, 8505); (8508, 8511); (8517, 8521); (8526, 8526);
  (8544, 8575); (8579, 8580); (9398, 9449); (11264, 11492); (11499, 11502);
  (11506, 11507); (11520, 11557); (11559, 11559); (11565, 11565);
  (42560, 42605); (42624, 42653); (42786, 42887); (42891, 42894);
  (42896, 42954); (42960, 42961); (42963, 42963); (42965, 42969);
  (42997, 42998); (43000, 43002); (43824, 43866); (43868, 43880);
  (43888, 43967); (64256, 64262); (64275, 64279); (65313, 65338);
  (65345, 65370); (66560, 66639); (66736, 66771); (66776, 66811);
  (66928, 66938); (66940, 66954); (66956, 66962); (66964, 66965);
  (66967, 66977); (66979, 66993); (66995, 67001); (67003, 67004);
  (67456, 67456); (67459, 67461); (67463, 67504); (67506, 67514);
  (68736, 68786); (68800, 68850); (71840, 71903); (93760, 93823);
  (119808, 119892); (119894, 119964); (119966, 119967); (119970, 119970);
  (119973, 119974); (119977, 119980); (119982, 119993); (119995, 119995);
  (119997, 120003); (120005, 120069); (120071, 120074); (120077, 120084);
  (120086, 120092); (120094, 120121); (120123, 120126); (120128, 120132);
  (120134, 120134); (120138, 120144); (120146, 120485); (120488, 120512);
  (120514, 120538); (120540, 120570); (120572, 120596); (120598, 120628);
  (120630, 120654); (120656, 120686); (120688, 120712); (120714, 120744);
  (120746, 120770); (120772, 120779); (122624, 122633); (122635, 122654);
  (125184, 125251); (127280, 127305); (127312, 127337); (127344, 127369)
].

Definition Case_Ignorable_ranges : list (N * N) := [
  (39, 39); (46, 46); (58, 58); (94, 94); (96, 96); (168, 168); (173, 173);
  (175, 175); (180, 180); (183, 184); (688, 879); (884, 885); (890, 890);
  (900, 901); (903, 903); (1155, 1161); (1369, 1369); (1375, 1375);
  (1425, 1469); (1471, 1471); (1473, 1474); (1476, 1477); (1479, 1479);
  (1524, 1524); (1536, 1541); (1552, 1562); (1564, 1564); (1600, 1600);
  (1611, 1631); (1648, 1648); (1750, 1757); (1759, 1768); (1770, 1773);
  (1807, 1807); (1809, 1809); (1840, 1866); (1958, 1968); (2027, 2037);
  (2042, 2042); (2045, 2045); (2070, 2093); (2137, 2139); (2184, 2184);
  (2192, 2193); (2200, 2207); (2249, 2306); (2362, 2362); (2364, 2364);
  (2369, 2376); (2381, 2381); (2385, 2391); (2402, 2403); (2417, 2417);
  (2433, 2433); (2492, 2492); (2497, 2500); (2509, 2509); (2530, 2531);
  (2558, 2558); (2561, 2562); (2620, 2620); (2625, 2626); (2631, 2632);
  (2635, 2637); (2641, 2641); (2672, 2673); (2677, 2677); (2689, 2690);
  (2748, 2748); (2753, 2757); (2759, 2760); (2765, 2765); (2786, 2787);
  (2810, 2815); (2817, 2817); (2876, 2876); (2879, 2879); (2881, 2884);
  (2893, 2893); (2901, 2902); (2914, 2915); (2946, 2946); (3008, 3008);
  (3021, 3021); (3072, 3072); (3076, 3076); (3132, 3132); (3134, 3136);
  (3142, 3144); (3146, 3149); (3157, 3158); (3170, 3171); (3201, 3201);
  (3260, 3260); (3263, 3263); (3270, 3270); (3276, 3277); (3298, 3299);
  (3328, 3329); (3387, 3388); (3393, 3396); (3405, 3405); (3426, 3427);
  (3457, 3457); (3530, 3530); (3538, 3540); (3542, 3542); (3633, 3633);
  (3636, 3642); (3654, 3662); (3761, 3761); (3764, 3772); (3782, 3782);
  (3784, 3789); (3864, 3865); (3893, 3893); (3895, 3895); (3897, 3897);
  (3953, 3966); (3968, 3972); (3974, 3975); (3981, 3991); (3993, 4028);
  (4038, 4038); (4141, 4144); (4146, 4151); (4153, 4154); (4157, 4158);
  (4184, 4185); (4190, 4192); (4209, 4212); (4226, 4226); (4229, 4230);
  (4237, 4237); (4253, 4253); (4348, 4348); (4957, 4959); (5906, 5908);
  (5938, 5939); (5970, 5971); (6002, 6003); (6068, 6069); (6071, 6077);
  (6086, 6086); (6089, 6099); (6103, 6103); (6109, 6109); (6155, 6159);
  (6211, 6211); (6277, 6278); (6313, 6313); (6432, 6434); (6439, 6440);
  (6450, 6450); (6457, 6459); (6679, 6680); (6683, 6683); (6742, 6742);
  (6744, 6750); (6752, 6752); (6754, 6754); (6757, 6764); (6771, 6780);
  (6783, 6783); (6823, 6823); (6832, 6862); (6912, 6915); (6964, 6964);
  (6966, 6970); (6972, 6972); (6978, 6978); (7019, 7027); (7040, 7041);
  (7074, 7077); (7080, 7081); (7083, 7085); (7142, 7142); (7144, 7145);
  (7149, 7149); (7151, 7153); (7212, 7219); (7222, 7223); (7288, 7293);
  (7376, 7378); (7380, 7392); (7394, 7400); (7405, 7405); (7412, 7412);
  (7416, 7417); (7468, 7530); (7544, 7544); (7579, 7679); (8125, 8125);
  (8127, 8129); (8141, 8143); (8157, 8159); (8173, 8175); (8189, 8190);
  (8203, 8207); (8216, 8217); (8228, 8228); (8231, 8231); (8234, 8238);
  (8288, 8292); (8294, 8303); (8305, 8305); (8319, 8319); (8336, 8348);
  (8400, 8432); (11388, 11389); (11503, 11505); (11631, 11631);
  (11647, 11647); (11744, 11775); (11823, 11823); (12293, 12293);
  (12330, 12333); (12337, 12341); (12347, 12347); (12441, 12446);
  (12540, 12542); (40981, 40981); (42232, 42237); (42508, 42508);
  (42607, 42610); (42612, 42621); (42623, 42623); (42652, 42655);
  (42736, 42737); (42752, 42785); (42864, 42864); (42888, 42890);
  (42994, 42996); (43000, 43001); (43010, 43010); (43014, 43014);
  (43019, 43019); (43045, 43046); (43052, 43052); (43204, 43205);
  (43232, 43249); (43263, 43263); (43302, 43309); (43335, 43345);
  (43392, 43394); (43443, 43443); (43446, 43449); (43452, 43453);
  (43471, 43471); (43493, 43494); (43561, 43566); (43569, 43570);
  (43573, 43574); (43587, 43587); (43596, 43596); (43632, 43632);
  (43644, 43644); (43696, 43696); (43698, 43700); (43703, 43704);
  (43710, 43711); (43713, 43713); (43741, 43741); (43756, 43757);
  (43763, 43764); (43766, 43766); (43867, 43871); (43881, 43883);
  (44005, 44005); (44008, 44008); (44013, 44013); (64286, 64286);
  (64434, 64450); (65024, 65039); (65043, 65043); (65056, 65071);
  (65106, 65106); (65109, 65109); (65279, 65279); (65287, 65287);
  (65294, 65294); (65306, 65306); (65342, 65342); (65344, 65344);
  (65392, 65392); (65438, 65439); (65507, 65507); (65529, 65531);
  (66045, 66045); (66272, 66272); (66422, 66426); (67456, 67461);
  (67463, 67504); (67506, 67514); (68097, 68099); (68101, 68102);
  (68108, 68111); (68152, 68154); (68159, 68159); (68325, 68326);
  (68900, 68903); (69291, 69292); (69446, 69456); (69506, 69509);
  (69633, 69633); (69688, 69702); (69744, 69744); (69747, 69748);
  (69759, 69761); (69811, 69814); (69817, 69818); (69821, 69821);
  (69826, 69826); (69837, 69837); (69888, 69890); (69927, 69931);
  (69933, 69940); (70003, 70003); (70016, 70017); (70070, 70078);
  (70089, 70092); (70095, 70095); (70191, 70193); (70196, 70196);
  (70198, 70199); (70206, 70206); (70367, 70367); (70371, 70378);
  (70400, 70401); (70459, 70460); (70464, 70464); (70502, 70508);
  (70512, 70516); (70712, 70719); (70722, 70724); (70726, 70726);
  (70750, 70750); (70835, 70840); (70842, 70842); (70847, 70848);
  (70850, 70851); (71090, 71093); (71100, 71101); (71103, 71104);
  (71132, 71133); (71219, 71226); (71229, 71229); (71231, 71232);
  (71339, 71339); (71341, 71341); (71344, 71349); (71351, 71351);
  (71453, 71455); (71458, 71461); (71463, 71467); (71727, 71735);
  (71737, 71738); (71995, 71996); (71998, 71998); (72003, 72003);
  (72148, 72151); (72154, 72155); (72160, 72160); (72193, 72202);
  (72243, 72248); (72251, 72254); (72263, 72263); (72273, 72278);
  (72281, 72283); (72330, 72342); (72344, 72345); (72752, 72758);
  (72760, 72765); (72767, 72767); (72850, 72871); (72874, 72880);
  (72882, 72883); (72885, 72886); (73009, 73014); (73018, 73018);
  (73020, 73021); (73023, 73029); (73031, 73031); (73104, 73105);
  (73109, 73109); (73111, 73111); (73459, 73460); (78896, 78904);
  (92912, 92916); (92976, 92982); (92992, 92995); (94031, 94031);
  (94095, 94111); (94176, 94177); (94179, 94180); (110576, 110579);
  (110581, 110587); (110589, 110590); (113821, 113822); (113824, 113827);
  (118528, 118573); (118576, 118598); (119143, 119145); (119155, 119170);
  (119173, 119179); (119210, 119213); (119362, 119364); (121344, 121398);
  (121403, 121452); (121461, 121461); (121476, 121476); (121499, 121503);
  (121505, 121519); (122880, 122886); (122888, 122904); (122907, 122913);
  (122915, 122916); (122918, 122922); (123184, 123197); (123566, 123566);
  (123628, 123631); (125136, 125142); (125252, 125259); (127995, 127999);
  (917505, 917505); (917536, 917631); (917760, 917999)
].

Definition in_ranges (c : N) (ranges : list (N * N)) : bool :=
  existsb (λ r, (r.1 <=? c) && (c <=? r.2)) ranges.

Definition Cased (c : N) : bool := in_ranges c Cased_ranges.
Definition Case_Ignorable (c : N) : bool := in_ranges c Case_Ignorable_ranges.

(** The condition Final_Sigma of SpecialCasing.txt: the capital sigma is
    preceded by a cased letter and any number of case-ignorable code
    points, and is not followed by case-ignorable code points and a
    cased letter.  [cased_letter_ahead] looks for the cased letter in one
    direction; [before] holds the code points before the sigma, the
    nearest first. *)
Fixpoint cased_letter_ahead (cps : list N) : bool :=
  match cps with
  | [] => false
  | c :: cps' => if Case_Ignorable c then cased_letter_ahead cps' else Cased c
  end.

Definition Final_Sigma (before after : list N) : bool :=
  cased_letter_ahead before && negb (cased_letter_ahead after).

(** toLowercase: U+03A3 becomes U+03C2 under Final_Sigma and U+03C3
    otherwise. *)
Fixpoint toLowercase (before cps : list N) : list N :=
  match cps with
  | [] => []
  | c :: after =>
    (if c =? 931
     then [if Final_Sigma before after then 962 else 963]
     else lower_code_point c)
    ++ toLowercase (c :: before) after
  end.

Definition toLowerCase (s : jsstring) : jsstring :=
  CodePointsToString (toLowercase [] (StringToCodePoints s)).

(** WhiteSpace and LineTerminator code points of ECMA-262, the ones
    [String.prototype.trim] strips. *)
Definition is_whitespace (c : N) : bool :=
  ((9 <=? c) && (c <=? 13)) || (c =? 32) || (c =? 160) || (c =? 5760)
  || ((8192 <=? c) && (c <=? 8202)) || (c =? 8232) || (c =? 8233)
  || (c =? 8239) || (c =? 8287) || (c =? 12288) || (c =? 65279).

Fixpoint trimStart (s : jsstring) : jsstring :=
  match s with
  | [] => []
  | c :: s' => if is_whitespace c then trimStart s' else s
  end.

Fixpoint trimEnd (s : jsstring) : jsstring :=
  match s with
  | [] => []
  | c :: s' =>
    match trimEnd s' with
    | [] => if is_whitespace c then [] else [c]
    | r => c :: r
    end
  end.

Definition trim (s : jsstring) : jsstring := trimEnd (trimStart s).

(** ** [src/types.ts] *)

Module Types.

Record Language := {
  code : jsstring;
  name : jsstring;
  flag : jsstring;
  voice : jsstring
}.

End Types.

Abbreviation Language := Types.Language.

#[global] Instance Language_eq_dec : EqDecision Language.
Proof. solve_decision. Defined.

(** Stands for [undefined] where an array is read by index; the reads of
    this file are all in range. *)
#[global] Instance Language_inhabited : Inhabited Language :=
  populate {| Types.code := []; Types.name := []; Types.flag := [];
              Types.voice := [] |}.

(** The table is copied from the file, bytes included. *)
Definition SUPPORTED_LANGUAGES : list Language := [
  {| Types.code := utf16 "fr"; Types.name := utf16 "FranÃ§ais"; Types.flag := utf16 "ğŸ‡«ğŸ‡·"; Types.voice := utf16 "Kore" |};
  {| Types.code := utf16 "en"; Types.name := utf16 "English"; Types.flag := utf16 "ğŸ‡ºğŸ‡¸"; Types.voice := utf16 "Puck" |};
  {| Types.code := utf16 "es"; Types.name := utf16 "EspaÃ±ol"; Types.flag := utf16 "ğŸ‡ªğŸ‡¸"; Types.voice := utf16 "Kore" |};
  {| Types.code := utf16 "de"; Types.name := utf16 "Deutsch"; Types.flag := utf16 "ğŸ‡©ğŸ‡ª"; Types.voice := utf16 "Fenrir" |};
  {| Types.code := utf16 "it"; Types.name := utf16 "Italiano"; Types.flag := utf16 "ğŸ‡®ğŸ‡¹"; Types.voice := utf16 "Kore" |};
  {| Types.code := utf16 "ja"; Types.name := utf16 "æ—¥æœ¬èª"; Types.flag := utf16 "ğŸ‡¯ğŸ‡µ"; Types.voice := utf16 "Kore" |};
  {| Types.code := utf16 "zh"; Types.name := utf16 "ä¸­æ–‡"; Types.flag := utf16 "ğŸ‡¨ğŸ‡³"; Types.voice := utf16 "Puck" |};
  {| Types.code := utf16 "th"; Types.name := utf16 "ThaÃ¯"; Types.flag := utf16 "ğŸ‡¹ğŸ‡­"; Types.voice := utf16 "Kore" |};
  {| Types.code := utf16 "uk"; Types.name := utf16 "Ukrainien"; Types.flag := utf16 "ğŸ‡ºğŸ‡¦"; Types.voice := utf16 "Kore" |};
  {| Types.code := utf16 "cs"; Types.name := utf16 "TchÃ¨que"; Types.flag := utf16 "ğŸ‡¨ğŸ‡¿"; Types.voice := utf16 "Puck" |};
  {| Types.code := utf16 "pl"; Types.name := utf16 "Polonais"; Types.flag := utf16 "ğŸ‡µğŸ‡±"; Types.voice := utf16 "Fenrir" |}
].

(** ** The offline phrase book ([App.tsx], lines 8-33) *)

(** An object literal whose properties are all strings. *)
Definition fr_en : gmap jsstring jsstring := list_to_map [
  (utf16 "bonjour", utf16 "hello");
  (utf16 "merci", utf16 "thank you");
  (utf16 "s'il vous plaît", utf16 "please");
  (utf16 "où est la gare ?", utf16 "where is the station?");
  (utf16 "je suis perdu", utf16 "i am lost");
  (utf16 "combien ça coûte ?", utf16 "how much does it cost?");
  (utf16 "santé !", utf16 "cheers!");
  (utf16 "oui", utf16 "yes");
  (utf16 "non", utf16 "no");
  (utf16 "pardon", utf16 "excuse me")
].

Definition en_fr : gmap jsstring jsstring := list_to_map [
  (utf16 "hello", utf16 "bonjour");
  (utf16 "thank you", utf16 "merci");
  (utf16 "please", utf16 "s'il vous plaît");
  (utf16 "where is the station?", utf16 "où est la gare ?");
  (utf16 "i am lost", utf16 "je suis perdu");
  (utf16 "how much does it cost?", utf16 "combien ça coûte ?");
  (utf16 "cheers!", utf16 "santé !");
  (utf16 "yes", utf16 "oui");
  (utf16 "no", utf16 "non");
  (utf16 "excuse me", utf16 "pardon")
].

Definition OFFLINE_DICTIONARY : gmap jsstring (gmap jsstring jsstring) :=
  list_to_map [ (utf16 "fr-en", fr_en); (utf16 "en-fr", en_fr) ].

(** The key of a language pair: the template literal
    [`${fromLang.code}-${toLang.code}`]. *)
Definition pair_key (from to : Language) : jsstring :=
  Types.code from ++ hyphen :: Types.code to.

(** ** Values of a property lookup *)

(** An object literal inherits from [Object.prototype]: [obj[key]] finds
    the own property [key] or else the property of that name on the
    prototype.  These are the names [Object.prototype] carries. *)
Definition Object_prototype_keys : list jsstring := [
  utf16 "constructor"; utf16 "__defineGetter__"; utf16 "__defineSetter__";
  utf16 "hasOwnProperty"; utf16 "__lookupGetter__"; utf16 "__lookupSetter__";
  utf16 "isPrototypeOf"; utf16 "propertyIsEnumerable"; utf16 "toString";
  utf16 "valueOf"; utf16 "__proto__"; utf16 "toLocaleString"
].

(** What [OFFLINE_DICTIONARY[pair]?.[normalizedText]] can evaluate to:
    [undefined], a string of the phrase book, or the member of
    [Object.prototype] of that name (a built-in function; the prototype
    object itself for [__proto__]). *)
Inductive value :=
| VUndefined
| VString (s : jsstring)
| VInherited (key : jsstring).

#[global] Instance value_eq_dec : EqDecision value.
Proof. solve_decision. Defined.

(** ToBoolean: [undefined] and the empty string are falsy, objects and
    functions are truthy. *)
Definition truthy (v : value) : bool :=
  match v with
  | VUndefined => false
  | VString s => negb (bool_decide (s = []))
  | VInherited _ => true
  end.

(** ToString, as the engines print built-in functions and plain
    objects. *)
Definition ToString (v : value) : jsstring :=
  match v with
  | VUndefined => utf16 "undefined"
  | VString s => s
  | VInherited key =>
    if bool_decide (key = utf16 "__proto__") then utf16 "[object Object]"
    else utf16 "function "
           ++ (if bool_decide (key = utf16 "constructor")
               then utf16 "Object" else key)
           ++ utf16 "() { [native code] }"
  end.

(** [obj[key]] on an object literal whose own properties are strings. *)
Definition get (obj : gmap jsstring jsstring) (key : jsstring) : value :=
  match obj !! key with
  | Some s => VString s
  | None =>
    if bool_decide (key ∈ Object_prototype_keys) then VInherited key
    else VUndefined
  end.

(** [OFFLINE_DICTIONARY[pair]?.[normalizedText]] (line 103).  A pair key
    holds a hyphen, so it never names a member of [Object.prototype]
    ([pair_key_not_inherited] below): the outer lookup is an own property
    or [undefined], and [?.] short-circuits on the latter. *)
Definition lookup_phrase (pair normalizedText : jsstring) : value :=
  match OFFLINE_DICTIONARY !! pair with
  | Some dictionary => get dictionary normalizedText
  | None => VUndefined
  end.

(** ** Numbers printed in decimal *)

Fixpoint uint_units (d : Decimal.uint) : jsstring :=
  match d with
  | Decimal.Nil => []
  | Decimal.D0 d => 48 :: uint_units d
  | Decimal.D1 d => 49 :: uint_units d
  | Decimal.D2 d => 50 :: uint_units d
  | Decimal.D3 d => 51 :: uint_units d
  | Decimal.D4 d => 52 :: uint_units d
  | Decimal.D5 d => 53 :: uint_units d
  | Decimal.D6 d => 54 :: uint_units d
  | Decimal.D7 d => 55 :: uint_units d
  | Decimal.D8 d => 56 :: uint_units d
  | Decimal.D9 d => 57 :: uint_units d
  end.

(** [Number.prototype.toString] on an integer (what [Date.now()]
    returns), which is also how [JSON.stringify] prints it. *)
Definition Number_toString (z : Z) : jsstring :=
  match Z.to_int z with
  | Decimal.Pos d => uint_units d
  | Decimal.Neg d => hyphen :: uint_units d
  end.

(** ** Records and component state *)

Module Record.

(** [TranslationRecord] of [types.ts].  [translatedText] is declared a
    string; [handleOfflineTranslate] stores in it what the lookup gave,
    so the field holds a [value].  [timestamp] is declared a number; the
    handlers store a reading of [Date.now()] in it, which is an
    integer. *)
Record TranslationRecord := {
  id : jsstring;
  originalText : jsstring;
  translatedText : value;
  fromLang : jsstring;
  toLang : jsstring;
  timestamp : Z
}.

End Record.

Abbreviation TranslationRecord := Record.TranslationRecord.

#[global] Instance TranslationRecord_eq_dec : EqDecision TranslationRecord.
Proof. solve_decision. Defined.

Inductive Tab := translate | history_tab.

Record Transcription := {
  user : jsstring;
  model : value
}.

(** The [useState] cells of [App] (lines 53-60). *)
Record AppState := {
  activeTab : Tab;
  fromLang : Language;
  toLang : Language;
  isListening : bool;
  isOnline : bool;
  manualOffline : bool;
  history : list TranslationRecord;
  currentTranscription : Transcription
}.

Definition setFromLang (l : Language) (st : AppState) : AppState :=
  {| activeTab := activeTab st; fromLang := l; toLang := toLang st;
     isListening := isListening st; isOnline := isOnline st;
     manualOffline := manualOffline st; history := history st;
     currentTranscription := currentTranscription st |}.

Definition setToLang (l : Language) (st : AppState) : AppState :=
  {| activeTab := activeTab st; fromLang := fromLang st; toLang := l;
     isListening := isListening st; isOnline := isOnline st;
     manualOffline := manualOffline st; history := history st;
     currentTranscription := currentTranscription st |}.

Definition setIsListening (b : bool) (st : AppState) : AppState :=
  {| activeTab := activeTab st; fromLang := fromLang st; toLang := toLang st;
     isListening := b; isOnline := isOnline st;
     manualOffline := manualOffline st; history := history st;
     currentTranscription := currentTranscription st |}.

(** [setHistory] and [setCurrentTranscription] take an updater. *)
Definition setHistory (f : list TranslationRecord → list TranslationRecord)
    (st : AppState) : AppState :=
  {| activeTab := activeTab st; fromLang := fromLang st; toLang := toLang st;
     isListening := isListening st; isOnline := isOnline st;
     manualOffline := manualOffline st; history := f (history st);
     currentTranscription := currentTranscription st |}.

Definition setCurrentTranscription (f : Transcription → Transcription)
    (st : AppState) : AppState :=
  {| activeTab := activeTab st; fromLang := fromLang st; toLang := toLang st;
     isListening := isListening st; isOnline := isOnline st;
     manualOffline := manualOffline st; history := history st;
     currentTranscription := f (currentTranscription st) |}.

(** The state of the first render, but for [isOnline], which is read
    from [navigator.onLine]. *)
Definition initial_state (onLine : bool) : AppState :=
  {| activeTab := translate;
     fromLang := default inhabitant (SUPPORTED_LANGUAGES !! 0%nat);
     toLang := default inhabitant (SUPPORTED_LANGUAGES !! 1%nat);
     isListening := false; isOnline := onLine; manualOffline := false;
     history := [];
     currentTranscription := {| user := []; model := VString [] |} |}.

(** Line 70. *)
Definition isActuallyOffline (st : AppState) : bool :=
  negb (isOnline st) || manualOffline st.

(** What the handlers do to the world outside the component. *)
Inductive effect :=
| Alert (msg : jsstring)
| ConsoleError (msg : jsstring)
| Speak (text : value) (lang : jsstring)
| RecognitionStart (lang : jsstring) (interimResults continuous : bool)
| NewGoogleGenAI (apiKey : jsstring)
| NewAudioContext (sampleRate : Z)
| GetUserMedia
| LiveConnect (modelName voiceName systemInstruction : jsstring).

(** ** The history list *)

(** [h => [newRecord, ...h].slice(0, 50)] (lines 125 and 230). *)
Definition push_record (newRecord : TranslationRecord)
    (h : list TranslationRecord) : list TranslationRecord :=
  take 50 (newRecord :: h).

(** ** [handleOfflineTranslate] (lines 100-126) *)

Definition normalize (text : jsstring) : jsstring := trim (toLowerCase text).

(** The template literal of line 106. *)
Definition fallback (text : jsstring) : jsstring :=
  utf16 "[Offline] " ++ dquote :: text ++ [dquote].

Definition translate_offline (from to : Language) (text : jsstring) : value :=
  let pair := pair_key from to in
  let normalizedText := normalize text in
  let translated := lookup_phrase pair normalizedText in
  if truthy translated then translated else VString (fallback text).

(** [now_id] and [now_ts] are the two readings of [Date.now()]. *)
Definition handleOfflineTranslate (now_id now_ts : Z) (text : jsstring)
    (st : AppState) : AppState * list effect :=
  let translated := translate_offline (fromLang st) (toLang st) text in
  let newRecord :=
    {| Record.id := Number_toString now_id;
       Record.originalText := text;
       Record.translatedText := translated;
       Record.fromLang := Types.code (fromLang st);
       Record.toLang := Types.code (toLang st);
       Record.timestamp := now_ts |} in
  (setHistory (push_record newRecord)
     (setCurrentTranscription
        (λ _, {| user := text; model := translated |}) st),
   [Speak translated (Types.code (toLang st))]).

(** ** The language selectors (lines 333 and 340) *)

(** [Array.prototype.indexOf]: the first index that holds the element,
    -1 when none does.  The selection is always an element of the table,
    whose entries are pairwise different, so comparing the records is
    comparing the objects. *)
Fixpoint indexOf_from (i : Z) (l : list Language) (x : Language) : Z :=
  match l with
  | [] => -1
  | y :: l' => if decide (y = x) then i else indexOf_from (i + 1) l' x
  end.

Definition indexOf (l : list Language) (x : Language) : Z :=
  indexOf_from 0 l x.

(** An array read at a number: [undefined] outside the array. *)
Definition at_index (l : list Language) (i : Z) : option Language :=
  if (i <? 0)%Z then None else l !! Z.to_nat i.

(** [SUPPORTED_LANGUAGES[(SUPPORTED_LANGUAGES.indexOf(cur) + 1)
    % SUPPORTED_LANGUAGES.length]]; [%] is the remainder that takes the
    sign of the dividend. *)
Definition next_language (cur : Language) : option Language :=
  at_index SUPPORTED_LANGUAGES
    (Z.rem (indexOf SUPPORTED_LANGUAGES cur + 1)
           (Z.of_nat (length SUPPORTED_LANGUAGES))).

(** [!isListening && setFromLang(...)]. *)
Definition tapFromLang (st : AppState) : AppState :=
  if isListening st then st
  else setFromLang (default inhabitant (next_language (fromLang st))) st.

Definition tapToLang (st : AppState) : AppState :=
  if isListening st then st
  else setToLang (default inhabitant (next_language (toLang st))) st.

(** ** [startOfflineListening] and [startSession] (lines 128-267) *)

(** What the platform answers when a session is started. *)
Record Env := {
  API_KEY : option jsstring;
  SpeechRecognition : bool;
  getUserMedia_resolves : bool;
  connect_resolves : bool
}.

(** Up to [recognition.start()]; the recognition's callbacks run later. *)
Definition startOfflineListening (env : Env) (st : AppState)
    : AppState * list effect :=
  if negb (SpeechRecognition env)
  then (st, [Alert (utf16 "Reconnaissance vocale non supportée sur cet appareil en mode hors ligne.")])
  else (st, [RecognitionStart (Types.code (fromLang st)) true false]).

Definition systemInstruction (from to : Language) : jsstring :=
  utf16 "Tu es un interprète professionnel. L'utilisateur parle en "
  ++ Types.name from ++ utf16 ". Traduis tout ce qu'il dit en "
  ++ Types.name to
  ++ utf16 ". NE PARLE QUE LA TRADUCTION. Sois direct et précis.".

Definition session_failed : list effect :=
  [ConsoleError (utf16 "Erreur session:");
   Alert (utf16 "Erreur de connexion. Vérifiez votre micro.")].

Definition startSession (env : Env) (st : AppState)
    : AppState * list effect :=
  if isActuallyOffline st then startOfflineListening env st
  else
    match API_KEY env with
    | None => (st, [Alert (utf16 "Clé API manquante.")])
    | Some key =>
      if bool_decide (key = []) then (st, [Alert (utf16 "Clé API manquante.")])
      else
        let opened := [NewGoogleGenAI key; NewAudioContext 16000;
                       NewAudioContext 24000; GetUserMedia] in
        let connect :=
          LiveConnect (utf16 "gemini-2.5-flash-native-audio-preview-09-2025")
            (Types.voice (toLang st))
            (systemInstruction (fromLang st) (toLang st)) in
        if negb (getUserMedia_resolves env) then (st, opened ++ session_failed)
        else if negb (connect_resolves env)
        then (st, opened ++ connect :: session_failed)
        else (setIsListening true st, opened ++ [connect])
    end.

(** The effects that build the cloud pipeline. *)
Definition cloud_effect (e : effect) : bool :=
  match e with
  | NewGoogleGenAI _ | NewAudioContext _ | GetUserMedia
  | LiveConnect _ _ _ => true
  | _ => false
  end.

(** ** The live session: [onmessage] (lines 209-255) *)

(** Times of the audio clock are JavaScript numbers.  The scheduler only
    compares and adds them, so it is written over any carrier with these
    operations; [NumberOrder] states what the proofs use of them, which
    holds of the doubles other than NaN. *)
Class Number (T : Type) := {
  num_zero : T;
  Math_max : T → T → T;
  num_add : T → T → T;
  num_le : T → T → Prop
}.

Class NumberOrder (T : Type) `{Number T} : Prop := {
  num_le_refl a : num_le a a;
  num_le_trans a b c : num_le a b → num_le b c → num_le a c;
  Math_max_l a b : num_le a (Math_max a b);
  Math_max_r a b : num_le b (Math_max a b);
  num_add_nonneg a d : num_le num_zero d → num_le a (num_add a d)
}.

#[global] Instance Z_Number : Number Z :=
  {| num_zero := 0%Z; Math_max := Z.max; num_add := Z.add; num_le := Z.le |}.

Section Live.

Context {T : Type} `{Number T}.

(** An [AudioBufferSourceNode] that was started: the nodes are told
    apart by the order of their creation. *)
Record Source := {
  node : nat;
  when : T;
  duration : T
}.

(** [nextStartTimeRef] and [sourcesRef], and the number of nodes created
    so far. *)
Record Playback := {
  nextStartTime : T;
  sources : list Source;
  created : nat
}.

(** [source.start(when)] on a new node, and the [forEach] of
    [stopAllAudio] that stops the nodes of the set. *)
Inductive audio_effect :=
| Start (s : Source)
| StopAll (stopped : list Source).

(** Lines 91-97. *)
Definition stopAllAudio (p : Playback) : Playback * list audio_effect :=
  ({| nextStartTime := num_zero; sources := []; created := created p |},
   [StopAll (sources p)]).

(** Line 239, up to the [await]. *)
Definition chunk_received (currentTime : T) (p : Playback) : Playback :=
  {| nextStartTime := Math_max (nextStartTime p) currentTime;
     sources := sources p; created := created p |}.

(** Lines 242-249, after the [await]: [d] is [audioBuffer.duration]. *)
Definition chunk_decoded (d : T) (p : Playback)
    : Playback * list audio_effect :=
  let source := {| node := created p; when := nextStartTime p;
                   duration := d |} in
  ({| nextStartTime := num_add (nextStartTime p) d;
      sources := sources p ++ [source];
      created := S (created p) |},
   [Start source]).

(** Line 246: [onended] takes the node out of the set. *)
Definition source_ended (n : nat) (p : Playback) : Playback :=
  {| nextStartTime := nextStartTime p;
     sources := filter (λ s, node s ≠ n) (sources p);
     created := created p |}.

(** The steps of the scheduler.  A handler runs to its [await] and
    resumes when the buffer is decoded; steps of other handlers can come
    in between, so the two halves are steps of their own. *)
Inductive playback_event :=
| ChunkReceived (currentTime : T)
| ChunkDecoded (d : T)
| SourceEnded (n : nat)
| StopAllAudio.

Definition playback_step (p : Playback) (e : playback_event)
    : Playback * list audio_effect :=
  match e with
  | ChunkReceived currentTime => (chunk_received currentTime p, [])
  | ChunkDecoded d => chunk_decoded d p
  | SourceEnded n => (source_ended n p, [])
  | StopAllAudio => stopAllAudio p
  end.

Fixpoint playback_run (p : Playback) (es : list playback_event)
    : Playback * list audio_effect :=
  match es with
  | [] => (p, [])
  | e :: es' =>
    let '(p1, t1) := playback_step p e in
    let '(p2, t2) := playback_run p1 es' in
    (p2, t1 ++ t2)
  end.

(** The parts of a [LiveServerMessage] the handler reads.  A
    transcription may come without [text].  [audio] is present when
    [inlineData.data] is a non-empty string, and then carries the
    duration of the buffer it decodes to. *)
Record LiveServerMessage := {
  inputTranscription : option (option jsstring);
  outputTranscription : option (option jsstring);
  turnComplete : bool;
  audio : option T;
  interrupted : bool
}.

(** The scheduler steps of one message handled without interleaving;
    [currentTime] is [audioCtx.currentTime] at line 239. *)
Definition message_events (currentTime : T) (m : LiveServerMessage)
    : list playback_event :=
  match audio m with
  | Some d => [ChunkReceived currentTime; ChunkDecoded d]
  | None => []
  end
  ++ (if interrupted m then [StopAllAudio] else []).

(** The nodes a trace starts, in order. *)
Definition started (tr : list audio_effect) : list Source :=
  omap (λ e, match e with Start s => Some s | StopAll _ => None end) tr.

(** Every start that directly follows a start comes at or after the end
    of the node started before. *)
Fixpoint spaced (tr : list audio_effect) : Prop :=
  match tr with
  | [] => True
  | Start s1 :: tl =>
    match tl with
    | Start s2 :: _ => num_le (num_add (when s1) (duration s1)) (when s2)
    | _ => True
    end ∧ spaced tl
  | StopAll _ :: tl => spaced tl
  end.

Definition text_of (t : option jsstring) : jsstring :=
  ToString (from_option VString VUndefined t).

(** Lines 210-234.  [from] and [to] are the languages the handler closed
    over when the session was started. *)
Definition onmessage_state (from to : Language) (now_id now_ts : Z)
    (m : LiveServerMessage) (st : AppState) : AppState :=
  let st1 :=
    match inputTranscription m with
    | Some text =>
      setCurrentTranscription
        (λ prev, {| user := user prev ++ text_of text; model := model prev |})
        st
    | None => st
    end in
  let st2 :=
    match outputTranscription m with
    | Some text =>
      setCurrentTranscription
        (λ prev, {| user := user prev;
                    model := VString (ToString (model prev) ++ text_of text) |})
        st1
    | None => st1
    end in
  if turnComplete m then
    let prev := currentTranscription st2 in
    let st3 :=
      if truthy (VString (user prev)) && truthy (model prev) then
        setHistory
          (push_record
             {| Record.id := Number_toString now_id;
                Record.originalText := user prev;
                Record.translatedText := model prev;
                Record.fromLang := Types.code from;
                Record.toLang := Types.code to;
                Record.timestamp := now_ts |})
          st2
      else st2 in
    setCurrentTranscription (λ _, {| user := []; model := VString [] |}) st3
  else st2.

End Live.

Arguments Source : clear implicits.
Arguments Playback : clear implicits.
Arguments audio_effect : clear implicits.
Arguments playback_event : clear implicits.
Arguments LiveServerMessage : clear implicits.

(** ** Runs of the component *)

(** The handlers above, as the events of a run. *)
Inductive app_event (T : Type) :=
| OfflineTranslate (now_id now_ts : Z) (text : jsstring)
| Message (from to : Language) (now_id now_ts : Z) (m : LiveServerMessage T)
| TapFromLang
| TapToLang
| StartSession (env : Env).

Arguments OfflineTranslate {T}.
Arguments Message {T}.
Arguments TapFromLang {T}.
Arguments TapToLang {T}.
Arguments StartSession {T}.

Definition app_step {T} (st : AppState) (e : app_event T) : AppState :=
  match e with
  | OfflineTranslate now_id now_ts text =>
    (handleOfflineTranslate now_id now_ts text st).1
  | Message from to now_id now_ts m =>
    onmessage_state from to now_id now_ts m st
  | TapFromLang => tapFromLang st
  | TapToLang => tapToLang st
  | StartSession env => (startSession env st).1
  end.

Definition app_run {T} (st : AppState) (es : list (app_event T)) : AppState :=
  foldl app_step st es.

(** ** JSON text *)

(** The values [JSON.parse] builds.  Numbers are integers here, as the
    time stamps of the records are. *)
#[warnings="-register-all"]
Inductive json :=
| JNull
| JBool (b : bool)
| JNumber (z : Z)
| JString (s : jsstring)
| JArray (items : list json)
| JObject (members : list (jsstring * json)).

Definition hex_digit (n : N) : N := if n <? 10 then 48 + n else 87 + n.

(** [\uXXXX], in lower case as [JSON.stringify] writes it. *)
Definition unicode_escape (c : N) : jsstring :=
  [92; 117; hex_digit (c / 4096 mod 16); hex_digit (c / 256 mod 16);
   hex_digit (c / 16 mod 16); hex_digit (c mod 16)].


(** QuoteJSONString of ECMA-262, between the quotes: the short escapes,
    [\u00XX] for the other control characters, [\uXXXX] for a surrogate
    that is not part of a pair, and every other code unit as it is. *)
Fixpoint quote_units (s : jsstring) : jsstring :=
  match s with
  | [] => []
  | c :: s' =>
    if c =? 8 then 92 :: 98 :: quote_units s'
    else if c =? 9 then 92 :: 116 :: quote_units s'
    else if c =? 10 then 92 :: 110 :: quote_units s'
    else if c =? 12 then 92 :: 102 :: quote_units s'
    else if c =? 13 then 92 :: 114 :: quote_units s'
    else if c =? 34 then 92 :: 34 :: quote_units s'
    else if c =? 92 then 92 :: 92 :: quote_units s'
    else if c <? 32 then unicode_escape c ++ quote_units s'
    else if is_high_surrogate c then
      match s' with
      | l :: s'' =>
        if is_low_surrogate l then c :: l :: quote_units s''
        else unicode_escape c ++ quote_units s'
      | [] => unicode_escape c
      end
    else if is_low_surrogate c then unicode_escape c ++ quote_units s'
    else c :: quote_units s'
  end.

Definition QuoteJSONString (s : jsstring) : jsstring :=
  dquote :: quote_units s ++ [dquote].

Fixpoint join_commas (parts : list jsstring) : jsstring :=
  match parts with
  | [] => []
  | [part] => part
  | part :: parts' => part ++ 44 :: join_commas parts'
  end.

(** A property of a serialized object: ["key":value]. *)
Definition property (key value : jsstring) : jsstring :=
  QuoteJSONString key ++ 58 :: value.

(** How [JSON.stringify] writes the value of a property: a string is
    quoted; a property that holds [undefined] or a function is left out;
    [Object.prototype] has no enumerable property of its own. *)
Definition stringify_value (v : value) : option jsstring :=
  match v with
  | VUndefined => None
  | VString s => Some (QuoteJSONString s)
  | VInherited key =>
    if bool_decide (key = utf16 "__proto__") then Some (utf16 "{}") else None
  end.

Definition stringify_record (r : TranslationRecord) : jsstring :=
  123 :: join_commas
    ([property (utf16 "id") (QuoteJSONString (Record.id r));
      property (utf16 "originalText")
        (QuoteJSONString (Record.originalText r))]
     ++ from_option (λ v, [property (utf16 "translatedText") v]) []
          (stringify_value (Record.translatedText r))
     ++ [property (utf16 "fromLang") (QuoteJSONString (Record.fromLang r));
         property (utf16 "toLang") (QuoteJSONString (Record.toLang r));
         property (utf16 "timestamp")
           (Number_toString (Record.timestamp r))])
  ++ [125].

(** [JSON.stringify(history)]. *)
Definition JSON_stringify (h : list TranslationRecord) : jsstring :=
  91 :: join_commas (stringify_record <$> h) ++ [93].

(** *** Parsing *)

Definition json_whitespace (c : N) : bool :=
  (c =? 9) || (c =? 10) || (c =? 13) || (c =? 32).

Fixpoint skip_whitespace (s : jsstring) : jsstring :=
  match s with
  | [] => []
  | c :: s' => if json_whitespace c then skip_whitespace s' else s
  end.

Definition hex_value (c : N) : option N :=
  if (48 <=? c) && (c <=? 57) then Some (c - 48)
  else if (97 <=? c) && (c <=? 102) then Some (c - 87)
  else if (65 <=? c) && (c <=? 70) then Some (c - 55)
  else None.

(** The character a short escape stands for. *)
Definition simple_escape (e : N) : option N :=
  if e =? 34 then Some 34
  else if e =? 92 then Some 92
  else if e =? 47 then Some 47
  else if e =? 98 then Some 8
  else if e =? 102 then Some 12
  else if e =? 110 then Some 10
  else if e =? 114 then Some 13
  else if e =? 116 then Some 9
  else None.

(** The characters of a string, from behind the opening quote to the
    closing one; gives the string and the text behind it. *)
Fixpoint parse_chars (s : jsstring) : option (jsstring * jsstring) :=
  match s with
  | [] => None
  | c :: s' =>
    if c =? 34 then Some ([], s')
    else if c =? 92 then
      match s' with
      | [] => None
      | e :: s'' =>
        if e =? 117 then
          match s'' with
          | h1 :: h2 :: h3 :: h4 :: s3 =>
            match hex_value h1, hex_value h2, hex_value h3, hex_value h4 with
            | Some a, Some b, Some c', Some d =>
              '(str, r) ← parse_chars s3;
              Some ((((a * 16 + b) * 16 + c') * 16 + d) :: str, r)
            | _, _, _, _ => None
            end
          | _ => None
          end
        else
          match simple_escape e with
          | Some u => '(str, r) ← parse_chars s''; Some (u :: str, r)
          | None => None
          end
      end
    else if c <? 32 then None
    else '(str, r) ← parse_chars s'; Some (c :: str, r)
  end.

Definition digit (c : N) : option (Decimal.uint → Decimal.uint) :=
  if c =? 48 then Some Decimal.D0
  else if c =? 49 then Some Decimal.D1
  else if c =? 50 then Some Decimal.D2
  else if c =? 51 then Some Decimal.D3
  else if c =? 52 then Some Decimal.D4
  else if c =? 53 then Some Decimal.D5
  else if c =? 54 then Some Decimal.D6
  else if c =? 55 then Some Decimal.D7
  else if c =? 56 then Some Decimal.D8
  else if c =? 57 then Some Decimal.D9
  else None.

Fixpoint take_digits (s : jsstring) : Decimal.uint * jsstring :=
  match s with
  | [] => (Decimal.Nil, [])
  | c :: s' =>
    match digit c with
    | Some D => let '(d, r) := take_digits s' in (D d, r)
    | None => (Decimal.Nil, s)
    end
  end.

(** At least one digit, and no zero in front of another digit. *)
Definition valid_digits (d : Decimal.uint) : bool :=
  match d with
  | Decimal.Nil => false
  | Decimal.D0 Decimal.Nil => true
  | Decimal.D0 _ => false
  | _ => true
  end.

(** A fraction or an exponent follows. *)
Definition starts_fraction (s : jsstring) : bool :=
  match s with
  | c :: _ => (c =? 46) || (c =? 101) || (c =? 69)
  | [] => false
  end.

(** An integer literal.  A literal with a fraction or an exponent has no
    value among the integers and is refused like ill-formed text. *)
Definition parse_number (s : jsstring) : option (Z * jsstring) :=
  let '(negative, s1) :=
    match s with
    | c :: s' => if c =? 45 then (true, s') else (false, s)
    | [] => (false, [])
    end in
  let '(d, r) := take_digits s1 in
  if valid_digits d && negb (starts_fraction r)
  then Some (Z.of_int (if negative then Decimal.Neg d else Decimal.Pos d), r)
  else None.

Fixpoint strip_prefix (lit s : jsstring) : option jsstring :=
  match lit with
  | [] => Some s
  | a :: lit' =>
    match s with
    | c :: s' => if a =? c then strip_prefix lit' s' else None
    | [] => None
    end
  end.

(** A value, the elements of an array behind its bracket, and the members
    of an object behind its brace.  [fuel] bounds the depth of the calls;
    [JSON_parse] gives enough of it for the whole text. *)
Fixpoint parse_value (fuel : nat) (s : jsstring) : option (json * jsstring) :=
  match fuel with
  | O => None
  | S fuel =>
    match skip_whitespace s with
    | [] => None
    | c :: r =>
      if c =? 34 then '(str, r') ← parse_chars r; Some (JString str, r')
      else if c =? 91 then
        match skip_whitespace r with
        | c' :: r' =>
          if c' =? 93 then Some (JArray [], r')
          else '(items, r'') ← parse_elements fuel r; Some (JArray items, r'')
        | [] => None
        end
      else if c =? 123 then
        match skip_whitespace r with
        | c' :: r' =>
          if c' =? 125 then Some (JObject [], r')
          else '(ms, r'') ← parse_members fuel r; Some (JObject ms, r'')
        | [] => None
        end
      else
        match strip_prefix (utf16 "null") (c :: r) with
        | Some r' => Some (JNull, r')
        | None =>
          match strip_prefix (utf16 "true") (c :: r) with
          | Some r' => Some (JBool true, r')
          | None =>
            match strip_prefix (utf16 "false") (c :: r) with
            | Some r' => Some (JBool false, r')
            | None => '(z, r') ← parse_number (c :: r); Some (JNumber z, r')
            end
          end
        end
    end
  end
with parse_elements (fuel : nat) (s : jsstring)
    : option (list json * jsstring) :=
  match fuel with
  | O => None
  | S fuel =>
    '(v, r) ← parse_value fuel s;
    match skip_whitespace r with
    | c :: r' =>
      if c =? 44 then
        '(vs, r'') ← parse_elements fuel r'; Some (v :: vs, r'')
      else if c =? 93 then Some ([v], r')
      else None
    | [] => None
    end
  end
with parse_members (fuel : nat) (s : jsstring)
    : option (list (jsstring * json) * jsstring) :=
  match fuel with
  | O => None
  | S fuel =>
    match skip_whitespace s with
    | c :: r =>
      if c =? 34 then
        '(k, r1) ← parse_chars r;
        match skip_whitespace r1 with
        | c1 :: r2 =>
          if c1 =? 58 then
            '(v, r3) ← parse_value fuel r2;
            match skip_whitespace r3 with
            | c3 :: r4 =>
              if c3 =? 44 then
                '(ms, r5) ← parse_members fuel r4; Some ((k, v) :: ms, r5)
              else if c3 =? 125 then Some ([(k, v)], r4)
              else None
            | [] => None
            end
          else None
        | [] => None
        end
      else None
    | [] => None
    end
  end.

(** [JSON.parse]: one value and nothing but white space behind it;
    [None] is the [SyntaxError]. *)
Definition JSON_parse (s : jsstring) : option json :=
  '(v, r) ← parse_value (2 * length s + 2) s;
  if bool_decide (skip_whitespace r = []) then Some v else None.

(** *** Parsed values as a history *)

(** [obj[key]] on a parsed object: of two members of one name the later
    one counts. *)
Fixpoint json_get (members : list (jsstring * json)) (key : jsstring)
    : option json :=
  match members with
  | [] => None
  | (k, v) :: members' =>
    match json_get members' key with
    | Some v' => Some v'
    | None => if bool_decide (k = key) then Some v else None
    end
  end.

Definition as_string (j : json) : option jsstring :=
  match j with JString s => Some s | _ => None end.

Definition as_number (j : json) : option Z :=
  match j with JNumber z => Some z | _ => None end.

(** The parsed value at the type [TranslationRecord[]] that
    [setHistory(JSON.parse(saved))] takes it for; [None] when it is not
    of that type. *)
Definition record_of_json (j : json) : option TranslationRecord :=
  match j with
  | JObject members =>
    id ← json_get members (utf16 "id") ≫= as_string;
    originalText ← json_get members (utf16 "originalText") ≫= as_string;
    translatedText ← json_get members (utf16 "translatedText") ≫= as_string;
    fromLang ← json_get members (utf16 "fromLang") ≫= as_string;
    toLang ← json_get members (utf16 "toLang") ≫= as_string;
    timestamp ← json_get members (utf16 "timestamp") ≫= as_number;
    Some {| Record.id := id; Record.originalText := originalText;
            Record.translatedText := VString translatedText;
            Record.fromLang := fromLang; Record.toLang := toLang;
            Record.timestamp := timestamp |}
  | _ => None
  end.

Definition history_of_json (j : json) : option (list TranslationRecord) :=
  match j with
  | JArray items => mapM record_of_json items
  | _ => None
  end.

(** The value a record of strings is written as and read back to. *)
Definition json_of_record (r : TranslationRecord) : json :=
  JObject
    [(utf16 "id", JString (Record.id r));
     (utf16 "originalText", JString (Record.originalText r));
     (utf16 "translatedText", JString (ToString (Record.translatedText r)));
     (utf16 "fromLang", JString (Record.fromLang r));
     (utf16 "toLang", JString (Record.toLang r));
     (utf16 "timestamp", JNumber (Record.timestamp r))].

(** ** Persistence (lines 78-79 and 87-89) *)

Definition HISTORY_KEY : jsstring := utf16 "lingoflow_history".

(** The effect that runs when [history] has changed:
    [localStorage.setItem('lingoflow_history', JSON.stringify(history))]. *)
Definition persist_history (st : AppState)
    (localStorage : gmap jsstring jsstring) : gmap jsstring jsstring :=
  <[HISTORY_KEY := JSON_stringify (history st)]> localStorage.

(** The effect of the first render: a saved value that is not the empty
    string is parsed and becomes the history.  [None]: the effect throws,
    or the state is set to a value that is no history. *)
Definition load_history (localStorage : gmap jsstring jsstring)
    (st : AppState) : option AppState :=
  match localStorage !! HISTORY_KEY with
  | None => Some st
  | Some saved =>
    if bool_decide (saved = []) then Some st
    else
      h ← JSON_parse saved ≫= history_of_json;
      Some (setHistory (λ _, h) st)
  end.

(** The records as [types.ts] declares them. *)
Definition well_typed (r : TranslationRecord) : Prop :=
  ∃ s, Record.translatedText r = VString s.

(** ** The other handlers of [App] *)

Definition setIsOnline (b : bool) (st : AppState) : AppState :=
  {| activeTab := activeTab st; fromLang := fromLang st; toLang := toLang st;
     isListening := isListening st; isOnline := b;
     manualOffline := manualOffline st; history := history st;
     currentTranscription := currentTranscription st |}.


(** The listeners of the window events (lines 73-74). *)
Definition handleOnline (st : AppState) : AppState := setIsOnline true st.
Definition handleOffline (st : AppState) : AppState := setIsOnline false st.

(** The refs [stopSession] reads; [true] stands for a ref that holds an
    object, [false] for [null]. *)
Record Refs := {
  recognitionRef : bool;
  mediaStreamRef : bool;
  inputAudioCtxRef : bool
}.

(** What [startOfflineListening] and [startSession] leave in these refs
    (lines 157, 176 and 180): the recognition when there is one, the
    input context once a key is there, the stream once [getUserMedia]
    has resolved. *)
Definition startSession_refs (env : Env) (st : AppState) (refs : Refs) : Refs :=
  if isActuallyOffline st then
    {| recognitionRef := recognitionRef refs || SpeechRecognition env;
       mediaStreamRef := mediaStreamRef refs;
       inputAudioCtxRef := inputAudioCtxRef refs |}
  else
    match API_KEY env with
    | None => refs
    | Some key =>
      if bool_decide (key = []) then refs
      else
        {| recognitionRef := recognitionRef refs;
           mediaStreamRef := mediaStreamRef refs || getUserMedia_resolves env;
           inputAudioCtxRef := true |}
    end.

(** The component with its refs. *)
Record World (T : Type) := {
  w_state : AppState;
  w_refs : Refs;
  w_playback : Playback T
}.

Arguments w_state {T}.
Arguments w_refs {T}.
Arguments w_playback {T}.

(** What [stopSession] does outside the component. *)
Inductive stop_effect (T : Type) :=
| RecognitionStop
| TracksStop
| InputContextClose
| AudioStop (e : audio_effect T).

Arguments RecognitionStop {T}.
Arguments TracksStop {T}.
Arguments InputContextClose {T}.
Arguments AudioStop {T}.

(** [stopSession] (lines 269-285).  [offline] is the [isActuallyOffline]
    of the render whose [stopSession] is called.  Only the recognition
    ref is set to [null]. *)
Definition stopSession {T} `{Number T} (offline : bool) (w : World T)
    : World T * list (stop_effect T) :=
  let '(p, stopped) := stopAllAudio (w_playback w) in
  let st := setIsListening false (w_state w) in
  ({| w_state :=
        if offline then st
        else setCurrentTranscription
               (λ _, {| user := []; model := VString [] |}) st;
      w_refs := {| recognitionRef := false;
                   mediaStreamRef := mediaStreamRef (w_refs w);
                   inputAudioCtxRef := inputAudioCtxRef (w_refs w) |};
      w_playback := p |},
   (if recognitionRef (w_refs w) then [RecognitionStop] else [])
   ++ (if mediaStreamRef (w_refs w) then [TracksStop] else [])
   ++ (if inputAudioCtxRef (w_refs w) then [InputContextClose] else [])
   ++ (AudioStop <$> stopped)).

(** [startSession] on the component with its refs. *)
Definition startSession_world {T} (env : Env) (w : World T)
    : World T * list effect :=
  let '(st, effects) := startSession env (w_state w) in
  ({| w_state := st;
      w_refs := startSession_refs env (w_state w) (w_refs w);
      w_playback := w_playback w |}, effects).

(** [toggleTranslation] (lines 287-290), the handler of the microphone
    button. *)
Definition toggleTranslation {T} `{Number T} (env : Env) (w : World T)
    : World T * list (effect + stop_effect T) :=
  if isListening (w_state w) then
    let '(w', effects) := stopSession (isActuallyOffline (w_state w)) w in
    (w', inr <$> effects)
  else
    let '(w', effects) := startSession_world env w in
    (w', inl <$> effects).


(** One entry of [event.results]: the transcript of its first
    alternative and its [isFinal]. *)
Record SpeechResult := {
  transcript : jsstring;
  isFinal : bool
}.

(** [handleOfflineTranslate] as a callback set up by an earlier render
    calls it: [from] and [to] are the selection of that render, which
    the function closed over; its two setters act on the state of the
    moment.  For the render of the moment this is
    [handleOfflineTranslate] above. *)
Definition handleOfflineTranslate_of (from to : Language) (now_id now_ts : Z)
    (text : jsstring) (st : AppState) : AppState * list effect :=
  let translated := translate_offline from to text in
  let newRecord :=
    {| Record.id := Number_toString now_id;
       Record.originalText := text;
       Record.translatedText := translated;
       Record.fromLang := Types.code from;
       Record.toLang := Types.code to;
       Record.timestamp := now_ts |} in
  (setHistory (push_record newRecord)
     (setCurrentTranscription
        (λ _, {| user := text; model := translated |}) st),
   [Speak translated (Types.code to)]).

(** [recognition.onstart] (line 140). *)
Definition onstart (st : AppState) : AppState := setIsListening true st.

(** [recognition.onresult] (lines 141-152) on an event of at least one
    result.  The handler belongs to the render that called
    [startOfflineListening]: [from] and [to] are the selection of that
    render, which need not be the selection of the moment, as the
    selectors work until [onstart] has set [isListening]; and its
    [stopSession] has [isActuallyOffline] true, as [startSession] calls
    [startOfflineListening] in that case only. *)
Definition onresult {T} `{Number T} (from to : Language) (now_id now_ts : Z)
    (first : SpeechResult) (more : list SpeechResult) (w : World T)
    : World T * list (effect + stop_effect T) :=
  let joined := concat (transcript <$> first :: more) in
  let st1 :=
    setCurrentTranscription
      (λ prev, {| user := joined; model := model prev |}) (w_state w) in
  if isFinal first then
    let '(st2, spoken) :=
      handleOfflineTranslate_of from to now_id now_ts joined st1 in
    let '(w', stopped) :=
      stopSession true
        {| w_state := st2; w_refs := w_refs w;
           w_playback := w_playback w |} in
    (w', (inl <$> spoken) ++ (inr <$> stopped))
  else
    ({| w_state := st1; w_refs := w_refs w; w_playback := w_playback w |},
     []).

(** The two effects of the first render (lines 72-89), in their order:
    the first reads the saved history and asks for it to become the
    state; the second, still of the first render, stores the empty
    history; when a saved value was read the re-render runs the second
    once more.  [None]: the first effect throws. *)
Definition mount (onLine : bool) (localStorage : gmap jsstring jsstring)
    : option (AppState * gmap jsstring jsstring) :=
  let st0 := initial_state onLine in
  st1 ← load_history localStorage st0;
  let stored := persist_history st0 localStorage in
  match localStorage !! HISTORY_KEY with
  | Some saved =>
    if bool_decide (saved = []) then Some (st1, stored)
    else Some (st1, persist_history st1 stored)
  | None => Some (st1, stored)
  end.


(** The text a message adds to either side of the transcription. *)
Definition input_piece {T} (m : LiveServerMessage T) : jsstring :=
  from_option text_of [] (inputTranscription m).

Definition output_piece {T} (m : LiveServerMessage T) : jsstring :=
  from_option text_of [] (outputTranscription m).

(** Messages of one session handled in turn; each comes with its two
    readings of [Date.now()]. *)
Definition onmessage_all {T} (from to : Language)
    (ms : list (Z * Z * LiveServerMessage T)) (st : AppState) : AppState :=
  foldl (λ st x, onmessage_state from to x.1.1 x.1.2 x.2 st) st ms.

(** The sources that the [StopAll]s of a trace stopped. *)
Definition stopped_sources {T} (tr : list (audio_effect T)) : list (Source T) :=
  tr ≫= λ e, match e with Start _ => [] | StopAll l => l end.

(** Offline translations made in turn; each comes with its two
    readings of [Date.now()]. *)
Definition offline_all (xs : list (Z * Z * jsstring)) (st : AppState)
    : AppState :=
  foldl (λ st x, (handleOfflineTranslate x.1.1 x.1.2 x.2 st).1) st xs.

(** The record [handleOfflineTranslate] makes of a text and the two
    readings of [Date.now()] under the selection of [st] (lines
    117-124). *)
Definition offline_record (st : AppState) (x : Z * Z * jsstring)
    : TranslationRecord :=
  {| Record.id := Number_toString x.1.1;
     Record.originalText := x.2;
     Record.translatedText := translate_offline (fromLang st) (toLang st) x.2;
     Record.fromLang := Types.code (fromLang st);
     Record.toLang := Types.code (toLang st);
     Record.timestamp := x.1.2 |}.

(** The set of sources is consistent: its nodes are different from each
    other and were created. *)
Definition sources_consistent {T} (p : Playback T) : Prop :=
  NoDup (node <$> sources p)
  ∧ Forall (λ s, (node s < created p)%nat) (sources p).





(** ** Notions of the proofs *)

(** Notions of the lowercase mapping: a surrogate; a code point that
    toLowercase leaves as it is; a list of code points without a lone
    high surrogate directly before a lone low one. *)
Definition is_surrogate (c : N) : bool :=
  is_high_surrogate c || is_low_surrogate c.

Definition stable (c : N) : bool :=
  negb (c =? 931) && negb (c =? 304)
  && bool_decide (assoc c simple_lowercase = None).

Definition head_low (cps : list N) : bool :=
  match cps with
  | c :: _ => is_low_surrogate c
  | [] => false
  end.

Fixpoint paired (cps : list N) : Prop :=
  match cps with
  | [] => True
  | c :: cps' =>
    (is_high_surrogate c = true → head_low cps' = false) ∧ paired cps'
  end.

(** A string that does not start with white space. *)
Definition head_kept (s : jsstring) : Prop :=
  match s with
  | [] => True
  | c :: _ => is_whitespace c = false
  end.

(** The check of one language pair against the table: French to
    English has the table [fr_en], English to French the table [en_fr],
    any other pair has none. *)
Definition is_pair (a b : jsstring) (from to : Language) : bool :=
  bool_decide (Types.code from = a) && bool_decide (Types.code to = b).

Definition expected_entry (from to : Language)
    : option (gmap jsstring jsstring) :=
  if is_pair (utf16 "fr") (utf16 "en") from to then Some fr_en
  else if is_pair (utf16 "en") (utf16 "fr") from to then Some en_fr
  else None.

Definition check_pair (from to : Language) : bool :=
  bool_decide (OFFLINE_DICTIONARY !! pair_key from to
               = expected_entry from to).

(** The ordered pairs of supported languages that have a table. *)
Definition pairs_with_entry : list (Language * Language) :=
  filter (λ p, is_Some (OFFLINE_DICTIONARY !! pair_key p.1 p.2))
    (list_prod SUPPORTED_LANGUAGES SUPPORTED_LANGUAGES).

(** The language a tap selects. *)
Definition tapped (l : Language) : Language :=
  default inhabitant (next_language l).

(** The first character of a printed integer. *)
Definition number_start (c : N) : Prop := c = 45 ∨ 48 ≤ c ≤ 57.

(** * Properties *)

(** ** Strings *)

Section Strings.

Lemma is_whitespace_spec c :
  is_whitespace c = true ↔
  (9 ≤ c ≤ 13 ∨ c = 32 ∨ c = 160 ∨ c = 5760 ∨ 8192 ≤ c ≤ 8202 ∨ c = 8232
   ∨ c = 8233 ∨ c = 8239 ∨ c = 8287 ∨ c = 12288 ∨ c = 65279).
Proof.
  unfold is_whitespace.
  rewrite !orb_true_iff, !andb_true_iff, !N.leb_le, !N.eqb_eq. tauto.
Qed.

Lemma is_surrogate_spec c : is_surrogate c = true ↔ 55296 ≤ c ≤ 57343.
Proof.
  unfold is_surrogate, is_high_surrogate, is_low_surrogate.
  rewrite orb_true_iff, !andb_true_iff, !N.leb_le. lia.
Qed.

Lemma is_high_surrogate_spec c : is_high_surrogate c = true ↔ 55296 ≤ c ≤ 56319.
Proof. unfold is_high_surrogate. rewrite andb_true_iff, !N.leb_le. lia. Qed.

Lemma is_low_surrogate_spec c : is_low_surrogate c = true ↔ 56320 ≤ c ≤ 57343.
Proof. unfold is_low_surrogate. rewrite andb_true_iff, !N.leb_le. lia. Qed.

Lemma whitespace_not_surrogate c :
  is_whitespace c = true → is_surrogate c = false ∧ c < 65536.
Proof.
  rewrite is_whitespace_spec. intros Hc. split; [|lia].
  apply not_true_is_false. rewrite is_surrogate_spec. lia.
Qed.

(** *** The table *)

Lemma simple_lowercase_check :
  forallb (λ p, stable p.2 && negb (is_surrogate p.2)
                && negb (is_surrogate p.1) && negb (is_whitespace p.1))
    simple_lowercase = true.
Proof. vm_compute. reflexivity. Qed.

Lemma assoc_Some c table l : assoc c table = Some l → (c, l) ∈ table.
Proof.
  induction table as [|[k v] table IH]; [done|]. simpl.
  destruct (N.eqb_spec c k) as [->|_].
  - intros [= ->]. by left.
  - intros Hl. right. by apply IH.
Qed.

Lemma simple_lowercase_entry c l :
  assoc c simple_lowercase = Some l →
  stable l = true ∧ is_surrogate l = false
  ∧ is_surrogate c = false ∧ is_whitespace c = false.
Proof.
  intros Hin%assoc_Some%list_elem_of_In.
  pose proof simple_lowercase_check as Hall.
  rewrite forallb_forall in Hall. specialize (Hall _ Hin). cbn in Hall.
  rewrite !andb_true_iff, !negb_true_iff in Hall. tauto.
Qed.

Lemma stable_spec c :
  stable c = true → (c =? 931) = false ∧ lower_code_point c = [c].
Proof.
  unfold stable, lower_code_point.
  rewrite !andb_true_iff, !negb_true_iff, bool_decide_eq_true.
  intros [[H1 H2] H3]. by rewrite H2, H3.
Qed.

(** What one code point becomes: itself, or code points that stay as
    they are and are no surrogates. *)
Lemma lower_code_point_cases c :
  c ≠ 931 →
  (lower_code_point c = [c] ∧ stable c = true)
  ∨ (lower_code_point c ≠ [] ∧ is_surrogate c = false
     ∧ is_whitespace c = false
     ∧ Forall (λ x, stable x = true ∧ is_surrogate x = false)
         (lower_code_point c)).
Proof.
  intros Hsigma. unfold lower_code_point.
  destruct (N.eqb_spec c 304) as [->|H304].
  { right. split; [done|]. split; [done|]. split; [done|].
    repeat constructor; by vm_compute. }
  destruct (assoc c simple_lowercase) as [l|] eqn:Hl.
  - right. destruct (simple_lowercase_entry c l Hl) as (? & ? & ? & ?).
    split; [done|]. split; [done|]. split; [done|]. by repeat constructor.
  - left. split; [done|]. unfold stable.
    rewrite Hl, bool_decide_eq_true_2 by done.
    apply N.eqb_neq in Hsigma, H304. by rewrite Hsigma, H304.
Qed.

Lemma lowered_cases before c after :
  let lowered :=
    if c =? 931 then [if Final_Sigma before after then 962 else 963]
    else lower_code_point c in
  (lowered = [c] ∧ stable c = true)
  ∨ (lowered ≠ [] ∧ is_surrogate c = false ∧ is_whitespace c = false
     ∧ Forall (λ x, stable x = true ∧ is_surrogate x = false) lowered).
Proof.
  cbv zeta. destruct (N.eqb_spec c 931) as [->|Hc].
  - right. split; [done|]. split; [done|]. split; [done|].
    destruct (Final_Sigma before after); repeat constructor; by vm_compute.
  - by apply lower_code_point_cases.
Qed.

Lemma toLowercase_cons before c after :
  toLowercase before (c :: after)
  = (if c =? 931 then [if Final_Sigma before after then 962 else 963]
     else lower_code_point c)
    ++ toLowercase (c :: before) after.
Proof. reflexivity. Qed.

Lemma toLowercase_stable before cps :
  Forall (λ x, stable x = true) (toLowercase before cps).
Proof.
  revert before. induction cps as [|c after IH]; intros before; [constructor|].
  rewrite toLowercase_cons. apply Forall_app. split; [|apply IH].
  destruct (lowered_cases before c after) as [[-> Hc]|(_ & _ & _ & Hall)].
  - by repeat constructor.
  - eapply Forall_impl; [exact Hall|]. by intros x [? _].
Qed.

Lemma toLowercase_fixed before cps :
  Forall (λ x, stable x = true) cps → toLowercase before cps = cps.
Proof.
  intros Hall. revert before.
  induction Hall as [|c after Hc _ IH]; intros before; [done|].
  rewrite toLowercase_cons, IH.
  destruct (stable_spec c Hc) as [-> ->]. reflexivity.
Qed.

(** *** Code points and code units *)

Lemma StringToCodePoints_cons lead trail s :
  StringToCodePoints (lead :: trail :: s)
  = if is_high_surrogate lead && is_low_surrogate trail
    then (65536 + (lead - 55296) * 1024 + (trail - 56320))
           :: StringToCodePoints s
    else lead :: StringToCodePoints (trail :: s).
Proof. reflexivity. Qed.

Lemma UTF16EncodeCodePoint_cases cp :
  (UTF16EncodeCodePoint cp = [cp] ∧ ¬ 65536 ≤ cp ≤ 1114111)
  ∨ (∃ lead trail, UTF16EncodeCodePoint cp = [lead; trail]
       ∧ 65536 ≤ cp
       ∧ is_high_surrogate lead = true ∧ is_low_surrogate trail = true
       ∧ 65536 + (lead - 55296) * 1024 + (trail - 56320) = cp).
Proof.
  unfold UTF16EncodeCodePoint.
  destruct (N.leb_spec 65536 cp) as [Hlo|Hlo];
    [destruct (N.leb_spec cp 1114111) as [Hhi|Hhi]|]; cbn [andb];
    [|left; split; [done|lia]..].
  right. eexists _, _. split; [reflexivity|]. split; [done|].
  pose proof (N.Div0.div_lt_upper_bound (cp - 65536) 1024 1024 ltac:(lia))
    as Hq.
  pose proof (N.mod_lt (cp - 65536) 1024 ltac:(lia)) as Hm.
  pose proof (N.div_mod (cp - 65536) 1024 ltac:(lia)) as Hqm.
  revert Hq Hm Hqm.
  generalize ((cp - 65536) / 1024) ((cp - 65536) mod 1024). intros q m ? ? ?.
  rewrite is_high_surrogate_spec, is_low_surrogate_spec. lia.
Qed.

Lemma head_low_CodePointsToString cps :
  head_low (CodePointsToString cps) = true → head_low cps = true.
Proof.
  destruct cps as [|c cps]; [done|]. unfold CodePointsToString.
  rewrite bind_cons.
  destruct (UTF16EncodeCodePoint_cases c)
    as [[-> _]|(lead & trail & -> & _ & Hlead & _)]; [done|].
  cbn. apply is_high_surrogate_spec in Hlead.
  rewrite is_low_surrogate_spec. lia.
Qed.

(** A list of code points in which no lone high surrogate comes directly
    before a lone low one is what its code units are read back to. *)
Lemma StringToCodePoints_CodePointsToString cps :
  paired cps → StringToCodePoints (CodePointsToString cps) = cps.
Proof.
  induction cps as [|c cps IH]; [done|]. intros [Hc Hcps].
  unfold CodePointsToString in *. rewrite bind_cons.
  destruct (UTF16EncodeCodePoint_cases c)
    as [[-> _]|(lead & trail & -> & _ & Hlead & Htrail & Hcp)].
  - cbn [app]. destruct (cps ≫= UTF16EncodeCodePoint) as [|x s] eqn:Hs.
    + destruct cps as [|c2 cps]; [done|]. rewrite bind_cons in Hs.
      destruct (UTF16EncodeCodePoint_cases c2)
        as [[Heq _]|(? & ? & Heq & _)]; by rewrite Heq in Hs.
    + rewrite StringToCodePoints_cons.
      destruct (is_high_surrogate c && is_low_surrogate x) eqn:Hpair.
      * apply andb_true_iff in Hpair as [Hhigh Hlow].
        pose proof (head_low_CodePointsToString cps) as Hhead.
        unfold CodePointsToString in Hhead. rewrite Hs in Hhead.
        rewrite (Hhead Hlow) in Hc. by specialize (Hc Hhigh).
      * by rewrite IH.
  - cbn [app]. rewrite StringToCodePoints_cons, Hlead, Htrail. cbn [andb].
    by rewrite Hcp, IH.
Qed.

Lemma paired_StringToCodePoints s : paired (StringToCodePoints s).
Proof.
  assert (H : paired (StringToCodePoints s)
              ∧ ∀ c, paired (StringToCodePoints (c :: s))
                     ∧ (head_low (StringToCodePoints (c :: s)) = true
                        → is_low_surrogate c = true));
    [|by destruct H].
  induction s as [|a s [IH1 IH2]].
  - split; [done|]. intros c. by repeat split.
  - split; [apply IH2|]. intros c. rewrite StringToCodePoints_cons.
    destruct (is_high_surrogate c && is_low_surrogate a) eqn:Hpair.
    + split.
      * split; [|done]. rewrite is_high_surrogate_spec. lia.
      * cbn. rewrite is_low_surrogate_spec. lia.
    + destruct (IH2 a) as [Hp Hhead]. split; [|done].
      split; [|done]. intros Hhigh. rewrite Hhigh in Hpair. cbn in Hpair.
      apply not_true_is_false. intros Hlow. apply Hhead in Hlow. congruence.
Qed.

Lemma StringToCodePoints_plain s :
  Forall (λ c, is_high_surrogate c = false) s → StringToCodePoints s = s.
Proof.
  induction 1 as [|c s Hc _ IH]; [done|].
  destruct s as [|c2 s]; [done|].
  by rewrite StringToCodePoints_cons, Hc, IH.
Qed.

Lemma CodePointsToString_plain cps :
  Forall (λ c, c < 65536) cps → CodePointsToString cps = cps.
Proof.
  unfold CodePointsToString.
  induction 1 as [|c cps Hc _ IH]; [done|]. rewrite bind_cons, IH.
  destruct (UTF16EncodeCodePoint_cases c) as [[-> _]|(? & ? & _ & ? & _)];
    [done | lia].
Qed.

Lemma paired_app_plain cps1 cps2 :
  Forall (λ x, is_surrogate x = false) cps1 → paired cps2 →
  paired (cps1 ++ cps2).
Proof.
  induction 1 as [|c cps1 Hc _ IH]; [done|]. intros Hp. split; [|by apply IH].
  intros Hhigh. unfold is_surrogate in Hc. by rewrite Hhigh in Hc.
Qed.

Lemma head_low_toLowercase before cps :
  head_low (toLowercase before cps) = true → head_low cps = true.
Proof.
  destruct cps as [|c after]; [done|]. rewrite toLowercase_cons.
  destruct (lowered_cases before c after) as [[-> _]|(Hne & _ & _ & Hall)];
    [done|].
  destruct Hall as [|x l [_ Hx] _]; [done|]. cbn.
  unfold is_surrogate in Hx. apply orb_false_iff in Hx as [_ Hx]. by rewrite Hx.
Qed.

Lemma paired_toLowercase before cps :
  paired cps → paired (toLowercase before cps).
Proof.
  revert before. induction cps as [|c after IH]; intros before; [done|].
  intros [Hc Hafter]. rewrite toLowercase_cons.
  destruct (lowered_cases before c after) as [[-> _]|(_ & _ & _ & Hall)].
  - split; [|by apply IH]. intros Hhigh.
    apply not_true_is_false. intros Hlow%head_low_toLowercase.
    rewrite (Hc Hhigh) in Hlow. done.
  - apply paired_app_plain; [|by apply IH].
    eapply Forall_impl; [exact Hall|]. by intros x [_ ?].
Qed.

(** *** Trimming *)

Lemma trimEnd_cons c s :
  trimEnd (c :: s) =
  match trimEnd s with
  | [] => if is_whitespace c then [] else [c]
  | r => c :: r
  end.
Proof. reflexivity. Qed.

Lemma trimEnd_cons_kept c s :
  is_whitespace c = false → trimEnd (c :: s) = c :: trimEnd s.
Proof. intros Hc. rewrite trimEnd_cons, Hc. by destruct (trimEnd s). Qed.

Lemma trimStart_suffix s : ∃ ws, s = ws ++ trimStart s.
Proof.
  induction s as [|c s [ws IH]]; [by exists []|]. simpl.
  destruct (is_whitespace c).
  - exists (c :: ws). cbn. by rewrite <- IH.
  - by exists [].
Qed.

Lemma trimEnd_prefix s : ∃ ws, s = trimEnd s ++ ws.
Proof.
  induction s as [|c s [ws IH]]; [by exists []|]. rewrite trimEnd_cons.
  destruct (trimEnd s) as [|c' r].
  - destruct (is_whitespace c); [by exists (c :: s)|].
    exists ws. cbn. by rewrite IH at 1.
  - exists ws. cbn. by rewrite IH at 1.
Qed.

Lemma paired_app_l cps1 cps2 : paired (cps1 ++ cps2) → paired cps1.
Proof.
  induction cps1 as [|c cps1 IH]; [done|]. cbn. intros [Hc Hp].
  split; [|by apply IH]. intros Hhigh. specialize (Hc Hhigh).
  destruct cps1; [done | exact Hc].
Qed.

Lemma paired_app_r cps1 cps2 : paired (cps1 ++ cps2) → paired cps2.
Proof. induction cps1 as [|c cps1 IH]; [done|]. cbn. intros [_ Hp]. auto. Qed.

Lemma trimStart_CodePointsToString cps :
  trimStart (CodePointsToString cps) = CodePointsToString (trimStart cps).
Proof.
  unfold CodePointsToString. induction cps as [|c cps IH]; [done|].
  rewrite bind_cons. cbn [trimStart].
  destruct (UTF16EncodeCodePoint_cases c)
    as [[Heq _]|(lead & trail & Heq & Hc & Hlead & _)]; rewrite Heq.
  - cbn [app trimStart]. destruct (is_whitespace c); [done|].
    by rewrite bind_cons, Heq.
  - assert (Hws : is_whitespace c = false).
    { apply not_true_is_false. rewrite is_whitespace_spec. lia. }
    assert (Hws' : is_whitespace lead = false).
    { apply not_true_is_false. rewrite is_whitespace_spec.
      apply is_high_surrogate_spec in Hlead. lia. }
    rewrite Hws. cbn [app trimStart]. rewrite Hws'.
    by rewrite bind_cons, Heq.
Qed.

Lemma CodePointsToString_nil cps : CodePointsToString cps = [] → cps = [].
Proof.
  destruct cps as [|c cps]; [done|]. unfold CodePointsToString.
  rewrite bind_cons.
  destruct (UTF16EncodeCodePoint_cases c) as [[-> _]|(? & ? & -> & _)]; done.
Qed.

Lemma trimEnd_CodePointsToString cps :
  trimEnd (CodePointsToString cps) = CodePointsToString (trimEnd cps).
Proof.
  induction cps as [|c cps IH]; [done|].
  change (CodePointsToString (c :: cps))
    with (UTF16EncodeCodePoint c ++ CodePointsToString cps).
  destruct (UTF16EncodeCodePoint_cases c)
    as [[Heq _]|(lead & trail & Heq & Hc & Hlead & Htrail & _)]; rewrite Heq.
  - cbn [app]. rewrite !trimEnd_cons, IH.
    destruct (trimEnd cps) as [|c' r] eqn:Hr.
    + cbn. destruct (is_whitespace c); [done|].
      change (CodePointsToString [c]) with (UTF16EncodeCodePoint c ++ []).
      by rewrite Heq.
    + destruct (CodePointsToString (c' :: r)) eqn:Hs.
      { by apply CodePointsToString_nil in Hs. }
      rewrite <- Hs.
      change (CodePointsToString (c :: c' :: r))
        with (UTF16EncodeCodePoint c ++ CodePointsToString (c' :: r)).
      by rewrite Heq.
  - assert (Hws : is_whitespace c = false).
    { apply not_true_is_false. rewrite is_whitespace_spec. lia. }
    assert (Hws1 : is_whitespace lead = false).
    { apply not_true_is_false. rewrite is_whitespace_spec.
      apply is_high_surrogate_spec in Hlead. lia. }
    assert (Hws2 : is_whitespace trail = false).
    { apply not_true_is_false. rewrite is_whitespace_spec.
      apply is_low_surrogate_spec in Htrail. lia. }
    cbn [app]. rewrite !trimEnd_cons_kept, IH by done.
    change (CodePointsToString (c :: trimEnd cps))
      with (UTF16EncodeCodePoint c ++ CodePointsToString (trimEnd cps)).
    by rewrite Heq.
Qed.

Lemma trim_CodePointsToString cps :
  trim (CodePointsToString cps) = CodePointsToString (trim cps).
Proof.
  unfold trim.
  by rewrite trimStart_CodePointsToString, trimEnd_CodePointsToString.
Qed.

Lemma trim_kept (P : N → Prop) s : Forall P s → Forall P (trim s).
Proof.
  intros Hs. unfold trim.
  destruct (trimStart_suffix s) as [ws Hws].
  destruct (trimEnd_prefix (trimStart s)) as [ws' Hws'].
  rewrite Hws, Hws' in Hs.
  apply Forall_app in Hs as [_ Hs]. by apply Forall_app in Hs as [Hs _].
Qed.

Lemma paired_trim cps : paired cps → paired (trim cps).
Proof.
  intros Hp. unfold trim.
  destruct (trimStart_suffix cps) as [ws Hws].
  destruct (trimEnd_prefix (trimStart cps)) as [ws' Hws'].
  rewrite Hws, Hws' in Hp.
  by apply paired_app_r, paired_app_l in Hp.
Qed.

Lemma trimStart_head_kept s : head_kept (trimStart s).
Proof.
  induction s as [|c s IH]; [done|]. simpl.
  by destruct (is_whitespace c) eqn:Hc.
Qed.

Lemma head_kept_trimStart s : head_kept s → trimStart s = s.
Proof. destruct s as [|c s]; [done|]. simpl. by intros ->. Qed.

Lemma trimEnd_head_kept s : head_kept s → head_kept (trimEnd s).
Proof.
  destruct s as [|c s]; [done|]. rewrite trimEnd_cons. simpl. intros Hc.
  destruct (trimEnd s); [by rewrite Hc | done].
Qed.

Lemma trimEnd_idem s : trimEnd (trimEnd s) = trimEnd s.
Proof.
  induction s as [|c s IH]; [done|]. rewrite trimEnd_cons.
  destruct (trimEnd s) as [|c' r] eqn:Hr.
  - destruct (is_whitespace c) eqn:Hc; [done|].
    rewrite trimEnd_cons. simpl. by rewrite Hc.
  - by rewrite trimEnd_cons, IH.
Qed.

Lemma trim_idem s : trim (trim s) = trim s.
Proof.
  unfold trim.
  rewrite (head_kept_trimStart (trimEnd (trimStart s))).
  - apply trimEnd_idem.
  - apply trimEnd_head_kept, trimStart_head_kept.
Qed.

(** *** The normalized text *)

(** Lowercasing leaves a lowercased, trimmed text as it is. *)
Lemma normalize_lower text : toLowerCase (normalize text) = normalize text.
Proof.
  unfold normalize, toLowerCase. rewrite trim_CodePointsToString.
  rewrite StringToCodePoints_CodePointsToString
    by apply paired_trim, paired_toLowercase, paired_StringToCodePoints.
  by rewrite toLowercase_fixed by apply trim_kept, toLowercase_stable.
Qed.

Lemma normalize_idem text : normalize (normalize text) = normalize text.
Proof.
  unfold normalize at 1. rewrite normalize_lower.
  unfold normalize. apply trim_idem.
Qed.

Lemma whitespace_stable c : is_whitespace c = true → stable c = true.
Proof.
  intros Hws. unfold stable.
  destruct (assoc c simple_lowercase) as [l|] eqn:Hl.
  { destruct (simple_lowercase_entry c l Hl) as (_ & _ & _ & ?). congruence. }
  rewrite bool_decide_eq_true_2 by done.
  apply is_whitespace_spec in Hws.
  destruct (N.eqb_spec c 931); [lia|]. destruct (N.eqb_spec c 304); [lia|done].
Qed.

(** Lowercasing leaves white space as it is. *)
Lemma toLowerCase_blank text :
  Forall (λ c, is_whitespace c = true) text → toLowerCase text = text.
Proof.
  intros Hws. unfold toLowerCase.
  rewrite StringToCodePoints_plain.
  - rewrite toLowercase_fixed
      by (eapply Forall_impl; [exact Hws | apply whitespace_stable]).
    apply CodePointsToString_plain.
    eapply Forall_impl; [exact Hws|]. intros c Hc.
    by apply whitespace_not_surrogate.
  - eapply Forall_impl; [exact Hws|]. intros c Hc.
    destruct (whitespace_not_surrogate c Hc) as [Hs _].
    unfold is_surrogate in Hs. by apply orb_false_iff in Hs as [? _].
Qed.

End Strings.

(** ** The phrase book *)

Section Dictionary.

Lemma check_pair_all :
  forallb (λ from, forallb (check_pair from) SUPPORTED_LANGUAGES)
    SUPPORTED_LANGUAGES = true.
Proof. vm_compute. reflexivity. Qed.

(** C1, as stated, fails: the table has no entry for French to
    Spanish, two different supported languages. *)
Lemma dictionary_lacks_fr_es :
  ¬ (∀ from to : Language,
       from ∈ SUPPORTED_LANGUAGES → to ∈ SUPPORTED_LANGUAGES → from ≠ to →
       ∃ d, OFFLINE_DICTIONARY !! pair_key from to = Some d
            ∧ size d = 10%nat).
Proof.
  intros H.
  destruct (SUPPORTED_LANGUAGES !! 0%nat) as [fr|] eqn:Hfr; [|done].
  destruct (SUPPORTED_LANGUAGES !! 2%nat) as [es|] eqn:Hes; [|done].
  destruct (H fr es) as (d & Hd & _).
  - by eapply list_elem_of_lookup_2.
  - by eapply list_elem_of_lookup_2.
  - injection Hfr as <-. injection Hes as <-. by vm_compute.
  - injection Hfr as <-. injection Hes as <-. by vm_compute in Hd.
Qed.

(** C1, amended: among the ordered pairs of supported languages,
    [OFFLINE_DICTIONARY] has an entry for French to English and one for
    English to French, each of exactly ten phrases, and no entry for any
    other pair: two of the 121 ordered pairs have an entry. *)
Theorem offline_dictionary_pairs (from to : Language) :
  from ∈ SUPPORTED_LANGUAGES → to ∈ SUPPORTED_LANGUAGES →
  (Types.code from = utf16 "fr" → Types.code to = utf16 "en" →
   OFFLINE_DICTIONARY !! pair_key from to = Some fr_en)
  ∧ (Types.code from = utf16 "en" → Types.code to = utf16 "fr" →
     OFFLINE_DICTIONARY !! pair_key from to = Some en_fr)
  ∧ (¬ (Types.code from = utf16 "fr" ∧ Types.code to = utf16 "en") →
     ¬ (Types.code from = utf16 "en" ∧ Types.code to = utf16 "fr") →
     OFFLINE_DICTIONARY !! pair_key from to = None)
  ∧ size fr_en = 10%nat ∧ size en_fr = 10%nat
  ∧ length pairs_with_entry = 2%nat.
Proof.
  intros Hf%list_elem_of_In Ht%list_elem_of_In.
  pose proof check_pair_all as H.
  rewrite forallb_forall in H. specialize (H _ Hf).
  rewrite forallb_forall in H. specialize (H _ Ht).
  unfold check_pair in H. apply bool_decide_eq_true in H.
  rewrite H. unfold expected_entry, is_pair.
  split; [|split; [|split]].
  - intros Hfr Hen. rewrite Hfr, Hen. reflexivity.
  - intros Hen Hfr. rewrite Hen, Hfr. reflexivity.
  - intros Hn1 Hn2.
    destruct (decide (Types.code from = utf16 "fr")) as [Hfr|Hfr],
      (decide (Types.code to = utf16 "en")) as [Hen|Hen];
      try (by destruct Hn1);
      rewrite ?(bool_decide_eq_true_2 _ Hfr), ?(bool_decide_eq_false_2 _ Hfr),
        ?(bool_decide_eq_true_2 _ Hen), ?(bool_decide_eq_false_2 _ Hen);
      cbn [andb];
      destruct (decide (Types.code from = utf16 "en")) as [Hen'|Hen'],
        (decide (Types.code to = utf16 "fr")) as [Hfr'|Hfr'];
      try (by destruct Hn2);
      rewrite ?(bool_decide_eq_true_2 _ Hen'),
        ?(bool_decide_eq_false_2 _ Hen'), ?(bool_decide_eq_true_2 _ Hfr'),
        ?(bool_decide_eq_false_2 _ Hfr'); reflexivity.
  - split; [by vm_compute|]. split; by vm_compute.
Qed.

Lemma offline_dictionary_pairs_witness :
  let fr := fromLang (initial_state true) in
  let en := toLang (initial_state true) in
  OFFLINE_DICTIONARY !! pair_key fr en = Some fr_en
  ∧ OFFLINE_DICTIONARY !! pair_key en fr = Some en_fr
  ∧ OFFLINE_DICTIONARY !! pair_key fr fr = None.
Proof.
  intros fr en.
  assert (Hfr : fr ∈ SUPPORTED_LANGUAGES)
    by (apply (list_elem_of_lookup_2 _ 0%nat); reflexivity).
  assert (Hen : en ∈ SUPPORTED_LANGUAGES)
    by (apply (list_elem_of_lookup_2 _ 1%nat); reflexivity).
  split; [|split].
  - apply (offline_dictionary_pairs fr en Hfr Hen); reflexivity.
  - apply (offline_dictionary_pairs en fr Hen Hfr); reflexivity.
  - apply (offline_dictionary_pairs fr fr Hfr Hfr).
    + intros [_ H]. by vm_compute in H.
    + intros [H _]. by vm_compute in H.
Defined.

Lemma fr_en_inverse : map_Forall (λ p q, en_fr !! q = Some p) fr_en.
Proof. apply (bool_decide_unpack _). vm_compute. reflexivity. Qed.

Lemma en_fr_inverse : map_Forall (λ q p, fr_en !! p = Some q) en_fr.
Proof. apply (bool_decide_unpack _). vm_compute. reflexivity. Qed.

(** C8: the French-English and the English-French tables are inverse
    to each other: [p] maps to [q] in the one exactly when [q] maps to
    [p] in the other, so a known phrase translated there and back is
    the phrase itself. *)
Theorem dictionaries_inverse (p q : jsstring) :
  (fr_en !! p = Some q ↔ en_fr !! q = Some p)
  ∧ (fr_en !! p = Some q →
     lookup_phrase (utf16 "fr-en") p = VString q
     ∧ lookup_phrase (utf16 "en-fr") q = VString p)
  ∧ (en_fr !! q = Some p →
     lookup_phrase (utf16 "en-fr") q = VString p
     ∧ lookup_phrase (utf16 "fr-en") p = VString q).
Proof.
  assert (Hiff : fr_en !! p = Some q ↔ en_fr !! q = Some p).
  { split; intros H.
    - by apply (fr_en_inverse p q).
    - by apply (en_fr_inverse q p). }
  assert (Hfr : ∀ k v, fr_en !! k = Some v →
                       lookup_phrase (utf16 "fr-en") k = VString v).
  { intros k v Hk. unfold lookup_phrase.
    change (OFFLINE_DICTIONARY !! utf16 "fr-en") with (Some fr_en).
    unfold get. by rewrite Hk. }
  assert (Hen : ∀ k v, en_fr !! k = Some v →
                       lookup_phrase (utf16 "en-fr") k = VString v).
  { intros k v Hk. unfold lookup_phrase.
    change (OFFLINE_DICTIONARY !! utf16 "en-fr") with (Some en_fr).
    unfold get. by rewrite Hk. }
  split; [done|]. split; intros H.
  - split; [by apply Hfr | by apply Hen, Hiff].
  - split; [by apply Hen | by apply Hfr, Hiff].
Qed.

Lemma dictionaries_inverse_witness :
  fr_en !! utf16 "bonjour" = Some (utf16 "hello")
  ∧ lookup_phrase (utf16 "fr-en") (utf16 "bonjour") = VString (utf16 "hello")
  ∧ lookup_phrase (utf16 "en-fr") (utf16 "hello") = VString (utf16 "bonjour").
Proof.
  assert (H : fr_en !! utf16 "bonjour" = Some (utf16 "hello"))
    by reflexivity.
  split; [exact H|].
  exact (proj1 (proj2 (dictionaries_inverse (utf16 "bonjour") (utf16 "hello")))
           H).
Defined.

End Dictionary.

(** ** Offline translation *)

Section Offline.

Lemma pair_key_not_inherited from to :
  pair_key from to ∉ Object_prototype_keys.
Proof.
  intros Hin.
  assert (Hall : Forall (λ k, hyphen ∉ k) Object_prototype_keys).
  { apply (bool_decide_unpack _). vm_compute. reflexivity. }
  rewrite Forall_forall in Hall. apply (Hall _ Hin).
  unfold pair_key. apply elem_of_app. right. apply elem_of_cons. by left.
Qed.

(** Of the names on [Object.prototype], a normalized text can only be one
    of the two that are all lower case. *)
Lemma normalize_inherited text :
  normalize text ∈ Object_prototype_keys →
  normalize text = utf16 "constructor" ∨ normalize text = utf16 "__proto__".
Proof.
  intros Hin. pose proof (normalize_lower text) as Hlow.
  unfold Object_prototype_keys in Hin.
  rewrite !elem_of_cons, elem_of_nil in Hin.
  destruct_or!; try done; auto;
    rewrite Hin in Hlow; by vm_compute in Hlow.
Qed.

(** The lookup follows the lowercase mappings beyond Latin-1: the Kelvin
    sign U+212A is lowercased to [k], and the capital sigma at the end
    of a word to the final sigma. *)
Lemma lowercase_beyond_latin1 :
  translate_offline (toLang (initial_state true))
    (fromLang (initial_state true)) (utf16 "THAN" ++ 8490 :: utf16 " YOU")
  = VString (utf16 "merci")
  ∧ toLowerCase [927; 916; 927; 931] = [959; 948; 959; 962]
  ∧ toLowerCase [304; 338; 268; 321; 1046] = [105; 775; 339; 269; 322; 1078].
Proof. by vm_compute. Qed.

(** The three outcomes of line 103-107. *)
Lemma translate_offline_no_dictionary from to text :
  OFFLINE_DICTIONARY !! pair_key from to = None →
  translate_offline from to text = VString (fallback text).
Proof. intros H. unfold translate_offline, lookup_phrase. by rewrite H. Qed.

Lemma translate_offline_unknown from to text d :
  OFFLINE_DICTIONARY !! pair_key from to = Some d →
  d !! normalize text = None →
  normalize text ∉ Object_prototype_keys →
  translate_offline from to text = VString (fallback text).
Proof.
  intros Hd Hk Hn. unfold translate_offline, lookup_phrase, get.
  rewrite Hd, Hk. by rewrite bool_decide_eq_false_2.
Qed.

Lemma translate_offline_inherited from to text d :
  OFFLINE_DICTIONARY !! pair_key from to = Some d →
  d !! normalize text = None →
  normalize text ∈ Object_prototype_keys →
  translate_offline from to text = VInherited (normalize text).
Proof.
  intros Hd Hk Hn. unfold translate_offline, lookup_phrase, get.
  rewrite Hd, Hk. by rewrite bool_decide_eq_true_2.
Qed.

Lemma handleOfflineTranslate_state now_id now_ts text st :
  let st' := (handleOfflineTranslate now_id now_ts text st).1 in
  let translated := translate_offline (fromLang st) (toLang st) text in
  currentTranscription st' = {| user := text; model := translated |}
  ∧ history st' =
    push_record
      {| Record.id := Number_toString now_id;
         Record.originalText := text;
         Record.translatedText := translated;
         Record.fromLang := Types.code (fromLang st);
         Record.toLang := Types.code (toLang st);
         Record.timestamp := now_ts |} (history st).
Proof. done. Qed.

(** C2, at the text [constructor] with the first selection (French to
    English): the text is no key of the table of the pair, and what is
    shown and recorded as its translation is the function
    [Object.prototype.constructor], not the fallback string. *)
Theorem fallback_missed_on_inherited_name :
  let text := utf16 "constructor" in
  let st := initial_state true in
  let st' := (handleOfflineTranslate 0 0 text st).1 in
  OFFLINE_DICTIONARY !! pair_key (fromLang st) (toLang st) = Some fr_en
  ∧ fr_en !! normalize text = None
  ∧ model (currentTranscription st') = VInherited (utf16 "constructor")
  ∧ Record.translatedText <$> head (history st')
    = Some (VInherited (utf16 "constructor"))
  ∧ model (currentTranscription st') ≠ VString (fallback text).
Proof.
  assert (Hm : translate_offline (fromLang (initial_state true))
                 (toLang (initial_state true)) (utf16 "constructor")
               = VInherited (utf16 "constructor"))
    by (vm_compute; reflexivity).
  cbv zeta.
  pose proof (handleOfflineTranslate_state 0 0 (utf16 "constructor")
                (initial_state true)) as [Hc Hh].
  cbv zeta in Hc, Hh. rewrite Hc, Hh, Hm. simpl.
  split; [reflexivity|].
  split; [vm_compute; reflexivity|]. by repeat split.
Qed.

Lemma fallback_inj text1 text2 : fallback text1 = fallback text2 → text1 = text2.
Proof.
  unfold fallback. intros Heq.
  apply app_inv_head in Heq. injection Heq as Heq.
  by apply app_inv_tail in Heq.
Qed.

(** C9, as stated, fails: a text that is not in the table and its
    normalized form get different fallback strings. *)
Lemma translation_of_unknown_text_not_normalized :
  ¬ (∀ (now_id now_ts : Z) (text : jsstring) (st : AppState),
       model (currentTranscription
                (handleOfflineTranslate now_id now_ts text st).1)
       = model (currentTranscription
                  (handleOfflineTranslate now_id now_ts (normalize text) st).1)).
Proof.
  intros H. specialize (H 0%Z 0%Z (utf16 " Hi") (initial_state true)).
  by vm_compute in H.
Qed.

(** C9, amended: a text and its lowercased, trimmed form select the
    same entry of the table, so when the lookup gives a translation,
    [handleOfflineTranslate] produces it for both; when it gives none,
    the translation is the fallback string around the text as it was
    entered.  The text as entered is what is shown as the user's
    transcription and stored as [originalText]. *)
Theorem offline_lookup_normalized (now_id now_ts : Z) (text : jsstring)
    (st : AppState) :
  let pair := pair_key (fromLang st) (toLang st) in
  let st' := (handleOfflineTranslate now_id now_ts text st).1 in
  let st_n := (handleOfflineTranslate now_id now_ts (normalize text) st).1 in
  lookup_phrase pair (normalize (normalize text))
  = lookup_phrase pair (normalize text)
  ∧ (truthy (lookup_phrase pair (normalize text)) = true →
     model (currentTranscription st') = lookup_phrase pair (normalize text)
     ∧ model (currentTranscription st_n) = model (currentTranscription st'))
  ∧ (truthy (lookup_phrase pair (normalize text)) = false →
     model (currentTranscription st') = VString (fallback text)
     ∧ (model (currentTranscription st_n) = model (currentTranscription st')
        ↔ normalize text = text))
  ∧ user (currentTranscription st') = text
  ∧ Record.originalText <$> head (history st') = Some text.
Proof.
  simpl. unfold translate_offline. rewrite normalize_idem.
  split; [done|]. split; [|split].
  - by intros ->.
  - intros ->. split; [done|]. split.
    + intros Heq. apply fallback_inj. congruence.
    + by intros ->.
  - done.
Qed.

Lemma offline_lookup_normalized_witness :
  let text := utf16 "  Bonjour " in
  let st := initial_state true in
  model (currentTranscription (handleOfflineTranslate 0 0 text st).1)
  = VString (utf16 "hello")
  ∧ model (currentTranscription
             (handleOfflineTranslate 0 0 (normalize text) st).1)
    = VString (utf16 "hello")
  ∧ model (currentTranscription
             (handleOfflineTranslate 0 0 (utf16 " Hi") st).1)
    = VString (fallback (utf16 " Hi")).
Proof.
  intros text st.
  destruct (offline_lookup_normalized 0 0 text st) as (_ & H & _).
  destruct H as [H1 H2]; [by vm_compute|].
  rewrite H2, H1. split; [by vm_compute|]. split; [by vm_compute|].
  destruct (offline_lookup_normalized 0 0 (utf16 " Hi") st) as (_ & _ & H & _).
  apply H. by vm_compute.
Defined.

End Offline.

(** ** The language selectors *)

Section Selectors.

Lemma next_language_at (i : nat) (l : Language) :
  SUPPORTED_LANGUAGES !! i = Some l →
  next_language l
  = SUPPORTED_LANGUAGES !! ((i + 1) `mod` length SUPPORTED_LANGUAGES)%nat.
Proof.
  intros Hi. pose proof (lookup_lt_Some _ _ _ Hi) as Hlt.
  do 11 (destruct i as [|i];
         [injection Hi as <-; vm_compute; reflexivity|]).
  simpl in Hlt. lia.
Qed.

Lemma SUPPORTED_LANGUAGES_length : length SUPPORTED_LANGUAGES = 11%nat.
Proof. reflexivity. Qed.

Lemma lookup_next_in_range (i : nat) :
  is_Some (SUPPORTED_LANGUAGES
             !! ((i + 1) `mod` length SUPPORTED_LANGUAGES)%nat).
Proof.
  apply lookup_lt_is_Some. rewrite SUPPORTED_LANGUAGES_length.
  apply Nat.mod_upper_bound. lia.
Qed.

Lemma tapped_cycle_check :
  forallb (λ l, bool_decide
                  (Nat.iter (length SUPPORTED_LANGUAGES) tapped l = l))
    SUPPORTED_LANGUAGES = true.
Proof. vm_compute. reflexivity. Qed.

Lemma tapped_cycle l :
  l ∈ SUPPORTED_LANGUAGES →
  Nat.iter (length SUPPORTED_LANGUAGES) tapped l = l.
Proof.
  intros Hl%list_elem_of_In. pose proof tapped_cycle_check as H.
  rewrite forallb_forall in H. by eapply bool_decide_eq_true_1, H.
Qed.

Lemma setFromLang_same st : setFromLang (fromLang st) st = st.
Proof. by destruct st. Qed.

Lemma setToLang_same st : setToLang (toLang st) st = st.
Proof. by destruct st. Qed.

Lemma tapFromLang_idle st :
  isListening st = false →
  tapFromLang st = setFromLang (tapped (fromLang st)) st.
Proof. intros Hst. unfold tapFromLang. by rewrite Hst. Qed.

Lemma tapToLang_idle st :
  isListening st = false →
  tapToLang st = setToLang (tapped (toLang st)) st.
Proof. intros Hst. unfold tapToLang. by rewrite Hst. Qed.

Lemma iter_tapFromLang n st :
  isListening st = false →
  Nat.iter n tapFromLang st = setFromLang (Nat.iter n tapped (fromLang st)) st.
Proof.
  intros Hst. induction n as [|n IH].
  - symmetry. apply setFromLang_same.
  - change (Nat.iter (S n) tapFromLang st)
      with (tapFromLang (Nat.iter n tapFromLang st)).
    rewrite IH. by rewrite tapFromLang_idle.
Qed.

Lemma iter_tapToLang n st :
  isListening st = false →
  Nat.iter n tapToLang st = setToLang (Nat.iter n tapped (toLang st)) st.
Proof.
  intros Hst. induction n as [|n IH].
  - symmetry. apply setToLang_same.
  - change (Nat.iter (S n) tapToLang st)
      with (tapToLang (Nat.iter n tapToLang st)).
    rewrite IH. by rewrite tapToLang_idle.
Qed.

(** C5: while not listening, a tap on a selector moves that selection
    from index [i] of [SUPPORTED_LANGUAGES] to index [(i + 1) mod length]
    and leaves the other selection alone; as many taps as the table has
    entries bring the state back; while listening a tap changes
    nothing. *)
Theorem language_tap_cycles (st : AppState) :
  fromLang st ∈ SUPPORTED_LANGUAGES → toLang st ∈ SUPPORTED_LANGUAGES →
  (isListening st = false →
   (∀ i : nat, SUPPORTED_LANGUAGES !! i = Some (fromLang st) →
      SUPPORTED_LANGUAGES !! ((i + 1) `mod` length SUPPORTED_LANGUAGES)%nat
      = Some (fromLang (tapFromLang st)))
   ∧ toLang (tapFromLang st) = toLang st
   ∧ (∀ i : nat, SUPPORTED_LANGUAGES !! i = Some (toLang st) →
      SUPPORTED_LANGUAGES !! ((i + 1) `mod` length SUPPORTED_LANGUAGES)%nat
      = Some (toLang (tapToLang st)))
   ∧ fromLang (tapToLang st) = fromLang st
   ∧ Nat.iter (length SUPPORTED_LANGUAGES) tapFromLang st = st
   ∧ Nat.iter (length SUPPORTED_LANGUAGES) tapToLang st = st)
  ∧ (isListening st = true → tapFromLang st = st ∧ tapToLang st = st).
Proof.
  intros Hfrom Hto. split; intros Hst.
  - assert (Hnext : ∀ (i : nat) l, SUPPORTED_LANGUAGES !! i = Some l →
        SUPPORTED_LANGUAGES !! ((i + 1) `mod` length SUPPORTED_LANGUAGES)%nat
        = Some (tapped l)).
    { intros i l Hi. unfold tapped. rewrite (next_language_at i l Hi).
      by destruct (lookup_next_in_range i) as [l' ->]. }
    rewrite (tapFromLang_idle st Hst), (tapToLang_idle st Hst).
    split; [exact (λ i, Hnext i (fromLang st))|].
    split; [reflexivity|].
    split; [exact (λ i, Hnext i (toLang st))|].
    split; [reflexivity|].
    split.
    + rewrite (iter_tapFromLang _ st Hst), (tapped_cycle _ Hfrom).
      apply setFromLang_same.
    + rewrite (iter_tapToLang _ st Hst), (tapped_cycle _ Hto).
      apply setToLang_same.
  - unfold tapFromLang, tapToLang. by rewrite Hst.
Qed.

Lemma language_tap_cycles_witness :
  let st := initial_state true in
  SUPPORTED_LANGUAGES !! 1%nat = Some (fromLang (tapFromLang st))
  ∧ Nat.iter 11 tapFromLang st = st.
Proof.
  intros st.
  assert (Hf : fromLang st ∈ SUPPORTED_LANGUAGES)
    by (apply (bool_decide_unpack _); vm_compute; reflexivity).
  assert (Ht : toLang st ∈ SUPPORTED_LANGUAGES)
    by (apply (bool_decide_unpack _); vm_compute; reflexivity).
  destruct (language_tap_cycles st Hf Ht) as [H _].
  destruct (H eq_refl) as (H1 & _ & _ & _ & H5 & _).
  split; [exact (H1 0%nat eq_refl) | exact H5].
Defined.

(** The selections stay in the table. *)
Lemma tapped_supported l :
  l ∈ SUPPORTED_LANGUAGES → tapped l ∈ SUPPORTED_LANGUAGES.
Proof.
  intros [i Hi]%list_elem_of_lookup_1. unfold tapped.
  rewrite (next_language_at i l Hi).
  destruct (lookup_next_in_range i) as [l' Hl']. rewrite Hl'.
  by eapply list_elem_of_lookup_2.
Qed.

End Selectors.

(** ** Starting a session *)

Section Session.

(** C4: when the browser is offline or the manual offline mode is on,
    [startSession] does what [startOfflineListening] does and nothing
    else: no [GoogleGenAI] client, no audio context, no [getUserMedia]
    and no live connection. *)
Theorem startSession_offline (env : Env) (st : AppState) :
  isOnline st = false ∨ manualOffline st = true →
  isActuallyOffline st = true
  ∧ startSession env st = startOfflineListening env st
  ∧ Forall (λ e, cloud_effect e = false) (startSession env st).2.
Proof.
  intros Hoff.
  assert (H : isActuallyOffline st = true).
  { unfold isActuallyOffline. destruct Hoff as [-> | ->]; [done|].
    apply orb_true_r. }
  split; [done|]. unfold startSession. rewrite H. split; [done|].
  unfold startOfflineListening.
  destruct (SpeechRecognition env); simpl; by repeat constructor.
Qed.

Lemma startSession_offline_witness :
  let env := {| API_KEY := Some (utf16 "key"); SpeechRecognition := true;
                getUserMedia_resolves := true; connect_resolves := true |} in
  let st := initial_state false in
  (startSession env st).2 = [RecognitionStart (utf16 "fr") true false].
Proof.
  intros env st.
  destruct (startSession_offline env st) as (_ & -> & _); [by left|].
  reflexivity.
Defined.

(** Online with a key, the same call does build the cloud pipeline. *)
Lemma startSession_online env st key :
  isActuallyOffline st = false → API_KEY env = Some key → key ≠ [] →
  Exists (λ e, cloud_effect e = true) (startSession env st).2.
Proof.
  intros Hon Hkey Hne. unfold startSession. rewrite Hon, Hkey.
  rewrite bool_decide_eq_false_2 by done.
  destruct (getUserMedia_resolves env), (connect_resolves env); simpl;
    by apply Exists_cons_hd.
Qed.

End Session.

(** ** The history list *)

Section History.

Lemma push_record_length r h : (length (push_record r h) ≤ 50)%nat.
Proof. unfold push_record. rewrite length_take. lia. Qed.

Lemma push_record_head r h : head (push_record r h) = Some r.
Proof. done. Qed.



End History.

(** ** The playback scheduler *)

#[global] Instance Z_NumberOrder : NumberOrder Z.
Proof. split; simpl; intros; lia. Qed.

Section Scheduler.

Context {T : Type} `{NumberOrder T}.

Implicit Types (p : Playback T) (es : list (playback_event T)).

Lemma playback_run_app p es1 es2 :
  playback_run p (es1 ++ es2) =
  let '(p1, t1) := playback_run p es1 in
  let '(p2, t2) := playback_run p1 es2 in
  (p2, t1 ++ t2).
Proof.
  revert p. induction es1 as [|e es1 IH]; intros p; simpl.
  - by destruct (playback_run p es2).
  - destruct (playback_step p e) as [p1 t1]. rewrite IH.
    destruct (playback_run p1 es1) as [p2 t2].
    destruct (playback_run p2 es2) as [p3 t3]. by rewrite app_assoc.
Qed.

(** The first effect of a run, when it is a start, comes at or after
    the [nextStartTime] the run began with. *)
Lemma first_start_after p es :
  match (playback_run p es).2 with
  | Start s :: _ => num_le (nextStartTime p) (when s)
  | _ => True
  end.
Proof.
  revert p. induction es as [|e es IH]; intros p; simpl; [done|].
  destruct e as [currentTime|d|n|]; simpl.
  - specialize (IH (chunk_received currentTime p)).
    destruct (playback_run (chunk_received currentTime p) es) as [p2 t2].
    simpl in *. destruct t2 as [|[s|?] ?]; try done.
    eapply num_le_trans; [|exact IH]. apply Math_max_l.
  - destruct (playback_run _ es) as [p2 t2]. simpl. apply num_le_refl.
  - specialize (IH (source_ended n p)).
    by destruct (playback_run (source_ended n p) es) as [p2 t2].
  - by destruct (playback_run _ es) as [p2 t2].
Qed.

Lemma playback_run_spaced p es : spaced (playback_run p es).2.
Proof.
  revert p. induction es as [|e es IH]; intros p; simpl; [done|].
  destruct e as [currentTime|d|n|]; simpl.
  - specialize (IH (chunk_received currentTime p)).
    by destruct (playback_run (chunk_received currentTime p) es).
  - pose proof (first_start_after (chunk_decoded d p).1 es) as Hfirst.
    specialize (IH (chunk_decoded d p).1). simpl in *.
    destruct (playback_run _ es) as [p2 t2]. simpl in *.
    split; [|done]. by destruct t2 as [|[s|?] ?].
  - specialize (IH (source_ended n p)).
    by destruct (playback_run (source_ended n p) es).
  - specialize (IH (stopAllAudio p).1). simpl in *.
    by destruct (playback_run _ es).
Qed.

Lemma spaced_adjacent (tr pre post : list (audio_effect T)) s1 s2 :
  spaced tr → tr = pre ++ Start s1 :: Start s2 :: post →
  num_le (num_add (when s1) (duration s1)) (when s2).
Proof.
  intros Hsp ->. induction pre as [|e pre IH]; simpl in Hsp.
  - by destruct Hsp.
  - apply IH. destruct e; [by destruct Hsp | done].
Qed.

Lemma playback_step_monotone p (e : playback_event T) :
  e ≠ StopAllAudio → (∀ d, e = ChunkDecoded d → num_le num_zero d) →
  num_le (nextStartTime p) (nextStartTime (playback_step p e).1).
Proof.
  intros Hstop Hd. destruct e as [currentTime|d|n|]; simpl.
  - apply Math_max_l.
  - apply num_add_nonneg. by apply Hd.
  - apply num_le_refl.
  - done.
Qed.

Lemma playback_run_monotone p es :
  StopAllAudio ∉ es → (∀ d, ChunkDecoded d ∈ es → num_le num_zero d) →
  num_le (nextStartTime p) (nextStartTime (playback_run p es).1).
Proof.
  revert p. induction es as [|e es IH]; intros p Hstop Hd; simpl.
  - apply num_le_refl.
  - pose proof (playback_step_monotone p e) as Hstep.
    specialize (IH (playback_step p e).1).
    destruct (playback_step p e) as [p1 t1].
    destruct (playback_run p1 es) as [p2 t2] eqn:Hrun.
    simpl in *. rewrite Hrun in IH. simpl in IH.
    eapply num_le_trans.
    + apply Hstep.
      * intros ->. apply Hstop. by left.
      * intros d ->. apply Hd. by left.
    + apply IH.
      * intros Hin. apply Hstop. by right.
      * intros d Hin. apply Hd. by right.
Qed.

(** Messages handled one after the other start their chunks in the
    order of arrival. *)
Lemma sequential_order p (ms : list (T * LiveServerMessage T)) :
  duration <$> started
    (playback_run p (ms ≫= λ tm, message_events tm.1 tm.2)).2
  = omap (λ tm, audio tm.2) ms.
Proof.
  revert p. induction ms as [|[t m] ms IH]; intros p; [done|].
  rewrite bind_cons, playback_run_app. simpl.
  unfold message_events at 1.
  destruct (audio m) as [d|], (interrupted m); simpl;
    match goal with
    | |- context [playback_run ?q (mbind ?f ms)] =>
      specialize (IH q); destruct (playback_run q (mbind f ms)) as [p2 t2]
    end; simpl; first [exact IH | f_equal; exact IH].
Qed.

(** C3: in every run of the scheduler, whichever way the handlers
    interleave, a chunk that is started directly after another one (no
    [stopAllAudio] in between) starts at or after the end of that one;
    messages handled one after the other are started in their order of
    arrival; and but for [stopAllAudio], which sets it to zero, no step
    makes [nextStartTime] smaller, the durations being non-negative. *)
Theorem playback_in_order (p : Playback T) (es : list (playback_event T)) :
  (∀ pre s1 s2 post,
     (playback_run p es).2 = pre ++ Start s1 :: Start s2 :: post →
     num_le (num_add (when s1) (duration s1)) (when s2))
  ∧ (∀ ms : list (T * LiveServerMessage T),
       duration <$> started
         (playback_run p (ms ≫= λ tm, message_events tm.1 tm.2)).2
       = omap (λ tm, audio tm.2) ms)
  ∧ (∀ e, e ≠ StopAllAudio → (∀ d, e = ChunkDecoded d → num_le num_zero d) →
       num_le (nextStartTime p) (nextStartTime (playback_step p e).1))
  ∧ (StopAllAudio ∉ es → (∀ d, ChunkDecoded d ∈ es → num_le num_zero d) →
       num_le (nextStartTime p) (nextStartTime (playback_run p es).1))
  ∧ nextStartTime (stopAllAudio p).1 = num_zero.
Proof.
  split; [|split; [|split; [|split]]].
  - intros pre s1 s2 post Htr.
    eapply spaced_adjacent; [apply (playback_run_spaced p es) | exact Htr].
  - apply sequential_order.
  - apply playback_step_monotone.
  - apply playback_run_monotone.
  - done.
Qed.

End Scheduler.

Lemma playback_in_order_witness :
  let p := {| nextStartTime := 0%Z; sources := []; created := 0 |} in
  let es := [ChunkReceived 5%Z; ChunkDecoded 3%Z;
             ChunkReceived 6%Z; ChunkDecoded 2%Z] in
  (playback_run p es).2
  = [Start {| node := 0; when := 5%Z; duration := 3%Z |};
     Start {| node := 1; when := 8%Z; duration := 2%Z |}]
  ∧ (5 + 3 ≤ 8)%Z
  ∧ (0 ≤ nextStartTime (playback_run p es).1)%Z.
Proof.
  intros p es.
  destruct (playback_in_order (H0 := Z_NumberOrder) p es)
    as (H1 & _ & _ & H4 & _).
  split; [reflexivity|]. split.
  - exact (H1 [] {| node := 0; when := 5%Z; duration := 3%Z |}
              {| node := 1; when := 8%Z; duration := 2%Z |} [] eq_refl).
  - apply H4.
    + unfold es. rewrite !not_elem_of_cons. repeat split; try done.
      apply not_elem_of_nil.
    + intros d Hd. simpl. unfold es in Hd.
      rewrite !elem_of_cons, elem_of_nil in Hd.
      destruct_or!; try done; simplify_eq; lia.
Defined.

(** ** JSON text: reading back what was written *)

Section Json.

Lemma hex_value_hex_digit n : n < 16 → hex_value (hex_digit n) = Some n.
Proof.
  intros Hn. unfold hex_digit, hex_value.
  destruct (N.ltb_spec n 10).
  - destruct (N.leb_spec 48 (48 + n)), (N.leb_spec (48 + n) 57);
      simpl; try lia. f_equal. lia.
  - destruct (N.leb_spec 48 (87 + n)), (N.leb_spec (87 + n) 57);
      simpl; try lia;
      destruct (N.leb_spec 97 (87 + n)), (N.leb_spec (87 + n) 102);
      simpl; try lia; f_equal; lia.
Qed.

Lemma hex_recompose c :
  c < 65536 →
  ((c / 4096 mod 16 * 16 + c / 256 mod 16) * 16 + c / 16 mod 16) * 16
  + c mod 16 = c.
Proof.
  intros Hc.
  pose proof (N.div_mod c 16). pose proof (N.div_mod (c / 16) 16).
  pose proof (N.div_mod (c / 256) 16).
  assert (c / 256 = c / 16 / 16) as E1 by (by rewrite N.Div0.div_div).
  assert (c / 4096 = c / 256 / 16) as E2 by (by rewrite N.Div0.div_div).
  assert (c / 4096 < 16) by (apply N.Div0.div_lt_upper_bound; lia).
  rewrite (N.mod_small (c / 4096) 16) by done.
  pose proof (N.mod_lt c 16). pose proof (N.mod_lt (c / 16) 16).
  pose proof (N.mod_lt (c / 256) 16).
  rewrite E1 in *. lia.
Qed.

Lemma parse_chars_unicode_escape c s :
  c < 65536 →
  parse_chars (unicode_escape c ++ s)
  = '(str, r) ← parse_chars s; Some (c :: str, r).
Proof.
  intros Hc. unfold unicode_escape.
  change (parse_chars ([92; 117; hex_digit (c / 4096 mod 16);
                        hex_digit (c / 256 mod 16); hex_digit (c / 16 mod 16);
                        hex_digit (c mod 16)] ++ s))
    with (match hex_value (hex_digit (c / 4096 mod 16)),
                hex_value (hex_digit (c / 256 mod 16)),
                hex_value (hex_digit (c / 16 mod 16)),
                hex_value (hex_digit (c mod 16)) with
          | Some a, Some b, Some c', Some d =>
            '(str, r) ← parse_chars s;
            Some ((((a * 16 + b) * 16 + c') * 16 + d) :: str, r)
          | _, _, _, _ => None
          end).
  rewrite !hex_value_hex_digit by (apply N.mod_lt; lia).
  by rewrite hex_recompose.
Qed.

Lemma parse_chars_literal c s :
  32 ≤ c → c ≠ 34 → c ≠ 92 →
  parse_chars (c :: s) = '(str, r) ← parse_chars s; Some (c :: str, r).
Proof.
  intros H32 H34 H92. simpl.
  destruct (N.eqb_spec c 34); [done|].
  destruct (N.eqb_spec c 92); [done|].
  destruct (N.ltb_spec c 32); [lia|done].
Qed.

Lemma surrogate_bounds c :
  (is_high_surrogate c = true → 55296 ≤ c ≤ 56319)
  ∧ (is_low_surrogate c = true → 56320 ≤ c ≤ 57343).
Proof.
  unfold is_high_surrogate, is_low_surrogate.
  rewrite !andb_true_iff, !N.leb_le. tauto.
Qed.

Lemma parse_chars_quote_units_bounded (n : nat) (s rest : jsstring) :
  (length s ≤ n)%nat →
  parse_chars (quote_units s ++ dquote :: rest) = Some (s, rest).
Proof.
  revert s. induction n as [|n IH]; intros [|c s] Hn; simpl in Hn;
    try done; try lia.
  assert (Hs : parse_chars (quote_units s ++ dquote :: rest) = Some (s, rest))
    by (apply IH; lia).
  cbn [quote_units].
  destruct (N.eqb_spec c 8) as [->|?];
    [cbn [app]; change (parse_chars (92 :: 98 :: ?t))
       with ('(str, r) ← parse_chars t; Some (8 :: str, r)); by rewrite Hs|].
  destruct (N.eqb_spec c 9) as [->|?];
    [cbn [app]; change (parse_chars (92 :: 116 :: ?t))
       with ('(str, r) ← parse_chars t; Some (9 :: str, r)); by rewrite Hs|].
  destruct (N.eqb_spec c 10) as [->|?];
    [cbn [app]; change (parse_chars (92 :: 110 :: ?t))
       with ('(str, r) ← parse_chars t; Some (10 :: str, r)); by rewrite Hs|].
  destruct (N.eqb_spec c 12) as [->|?];
    [cbn [app]; change (parse_chars (92 :: 102 :: ?t))
       with ('(str, r) ← parse_chars t; Some (12 :: str, r)); by rewrite Hs|].
  destruct (N.eqb_spec c 13) as [->|?];
    [cbn [app]; change (parse_chars (92 :: 114 :: ?t))
       with ('(str, r) ← parse_chars t; Some (13 :: str, r)); by rewrite Hs|].
  destruct (N.eqb_spec c 34) as [->|?];
    [cbn [app]; change (parse_chars (92 :: 34 :: ?t))
       with ('(str, r) ← parse_chars t; Some (34 :: str, r)); by rewrite Hs|].
  destruct (N.eqb_spec c 92) as [->|?];
    [cbn [app]; change (parse_chars (92 :: 92 :: ?t))
       with ('(str, r) ← parse_chars t; Some (92 :: str, r)); by rewrite Hs|].
  destruct (N.ltb_spec c 32).
  { rewrite <- app_assoc, parse_chars_unicode_escape by lia. by rewrite Hs. }
  destruct (is_high_surrogate c) eqn:Hhigh.
  { apply surrogate_bounds in Hhigh.
    destruct s as [|l s'].
    - rewrite parse_chars_unicode_escape by lia. reflexivity.
    - destruct (is_low_surrogate l) eqn:Hlow.
      + apply surrogate_bounds in Hlow. cbn [app].
        rewrite !parse_chars_literal by lia.
        rewrite IH by (simpl in Hn; lia). reflexivity.
      + rewrite <- app_assoc, parse_chars_unicode_escape by lia.
        by rewrite Hs. }
  destruct (is_low_surrogate c) eqn:Hlow.
  { apply surrogate_bounds in Hlow.
    rewrite <- app_assoc, parse_chars_unicode_escape by lia. by rewrite Hs. }
  cbn [app]. rewrite parse_chars_literal by lia. by rewrite Hs.
Qed.

(** A quoted string is read back as the string. *)
Lemma parse_chars_quote_units s rest :
  parse_chars (quote_units s ++ dquote :: rest) = Some (s, rest).
Proof. by apply (parse_chars_quote_units_bounded (length s)). Qed.

(** *** Numbers *)

Lemma take_digits_uint_units d rest :
  match rest with c :: _ => digit c = None | [] => True end →
  take_digits (uint_units d ++ rest) = (d, rest).
Proof.
  intros Hrest. induction d; simpl; rewrite ?IHd; try done.
  destruct rest as [|c rest]; [done|]. simpl. by rewrite Hrest.
Qed.

Lemma valid_digits_unorm d : Decimal.unorm d = d → valid_digits d = true.
Proof.
  destruct d as [|d| | | | | | | | |]; try done. intros Hd.
  unfold Decimal.unorm in Hd. simpl in Hd.
  destruct (Decimal.nzhead d) eqn:Hnz; try discriminate.
  - by injection Hd as <-.
  - by destruct (DecimalFacts.nzhead_nonzero _ _ Hnz).
Qed.

Lemma valid_digits_to_uint p : valid_digits (Pos.to_uint p) = true.
Proof.
  apply valid_digits_unorm.
  rewrite <- (DecimalPos.Unsigned.to_of (Pos.to_uint p)).
  by rewrite DecimalPos.Unsigned.of_to.
Qed.

Lemma uint_units_head d :
  d ≠ Decimal.Nil → ∃ c t, uint_units d = c :: t ∧ 48 ≤ c ≤ 57.
Proof. destruct d; try done; intros _; simpl; eexists _, _; split; done || lia. Qed.

Lemma Number_toString_head z :
  ∃ c t, Number_toString z = c :: t ∧ number_start c.
Proof.
  unfold Number_toString, number_start. destruct z as [|p|p]; simpl.
  - eexists _, _. split; [done|]. lia.
  - destruct (uint_units_head (Pos.to_uint p)) as (c & t & -> & Hc).
    { apply DecimalPos.Unsigned.to_uint_nonnil. }
    eauto.
  - eexists _, _. split; [done|]. by left.
Qed.

Lemma parse_number_Number_toString z rest :
  parse_number (Number_toString z ++ 125 :: rest) = Some (z, 125 :: rest).
Proof.
  pose proof (DecimalZ.of_to z) as Hz.
  unfold Number_toString, parse_number in *.
  destruct z as [|p|p]; simpl Z.to_int in *.
  - reflexivity.
  - destruct (uint_units_head (Pos.to_uint p)) as (c & t & Hct & Hc).
    { apply DecimalPos.Unsigned.to_uint_nonnil. }
    rewrite Hct. cbn [app].
    destruct (N.eqb_spec c 45); [lia|].
    change (c :: t ++ 125 :: rest) with ((c :: t) ++ 125 :: rest).
    rewrite <- Hct, take_digits_uint_units by done.
    rewrite valid_digits_to_uint.
    change (starts_fraction (125 :: rest)) with false. cbn [negb andb].
    by rewrite Hz.
  - cbn [app]. change (hyphen =? 45) with true. cbv iota beta.
    rewrite take_digits_uint_units by done.
    rewrite valid_digits_to_uint.
    change (starts_fraction (125 :: rest)) with false. cbn [negb andb].
    by rewrite Hz.
Qed.

(** *** Values, members and elements *)

Lemma QuoteJSONString_app s rest :
  QuoteJSONString s ++ rest = dquote :: quote_units s ++ dquote :: rest.
Proof. unfold QuoteJSONString. simpl. by rewrite <- app_assoc. Qed.

Lemma parse_value_string f s rest :
  parse_value (S f) (QuoteJSONString s ++ rest) = Some (JString s, rest).
Proof.
  rewrite QuoteJSONString_app. simpl.
  by rewrite parse_chars_quote_units.
Qed.

Lemma parse_value_number f z rest :
  parse_value (S f) (Number_toString z ++ 125 :: rest)
  = Some (JNumber z, 125 :: rest).
Proof.
  pose proof (parse_number_Number_toString z rest) as Hnum.
  destruct (Number_toString_head z) as (c & t & Hct & Hc).
  rewrite Hct in *. cbn [app] in *. unfold number_start in Hc.
  cbn [parse_value skip_whitespace].
  assert (Hws : json_whitespace c = false).
  { unfold json_whitespace.
    destruct (N.eqb_spec c 9), (N.eqb_spec c 10), (N.eqb_spec c 13),
      (N.eqb_spec c 32); simpl; lia || done. }
  rewrite Hws.
  destruct (N.eqb_spec c 34); [lia|].
  destruct (N.eqb_spec c 91); [lia|].
  destruct (N.eqb_spec c 123); [lia|].
  assert (Hlit : ∀ a lit, a ≠ c → strip_prefix (a :: lit) (c :: t ++ 125 :: rest) = None).
  { intros a lit Ha. simpl. by destruct (N.eqb_spec a c). }
  change (utf16 "null") with (110 :: utf16 "ull").
  change (utf16 "true") with (116 :: utf16 "rue").
  change (utf16 "false") with (102 :: utf16 "alse").
  rewrite !Hlit by lia. by rewrite Hnum.
Qed.

Lemma parse_members_string f k s rest :
  parse_members (S (S f)) (property k (QuoteJSONString s) ++ 44 :: rest)
  = '(ms, r) ← parse_members (S f) rest; Some ((k, JString s) :: ms, r).
Proof.
  unfold property. rewrite <- app_assoc. cbn [app].
  rewrite (QuoteJSONString_app k).
  change (parse_members (S (S f)) (dquote :: ?t))
    with ('(k', r1) ← parse_chars t;
          match skip_whitespace r1 with
          | c1 :: r2 =>
            if c1 =? 58 then
              '(v, r3) ← parse_value (S f) r2;
              match skip_whitespace r3 with
              | c3 :: r4 =>
                if c3 =? 44 then
                  '(ms, r5) ← parse_members (S f) r4; Some ((k', v) :: ms, r5)
                else if c3 =? 125 then Some ([(k', v)], r4)
                else None
              | [] => None
              end
            else None
          | [] => None
          end).
  rewrite parse_chars_quote_units. cbn [mbind option_bind].
  change (skip_whitespace (58 :: ?t)) with (58 :: t).
  change (58 =? 58) with true. cbv iota.
  rewrite parse_value_string. cbn [mbind option_bind].
  reflexivity.
Qed.

Lemma parse_members_last f k z rest :
  parse_members (S (S f)) (property k (Number_toString z) ++ 125 :: rest)
  = Some ([(k, JNumber z)], rest).
Proof.
  unfold property. rewrite <- app_assoc. cbn [app].
  rewrite (QuoteJSONString_app k).
  change (parse_members (S (S f)) (dquote :: ?t))
    with ('(k', r1) ← parse_chars t;
          match skip_whitespace r1 with
          | c1 :: r2 =>
            if c1 =? 58 then
              '(v, r3) ← parse_value (S f) r2;
              match skip_whitespace r3 with
              | c3 :: r4 =>
                if c3 =? 44 then
                  '(ms, r5) ← parse_members (S f) r4; Some ((k', v) :: ms, r5)
                else if c3 =? 125 then Some ([(k', v)], r4)
                else None
              | [] => None
              end
            else None
          | [] => None
          end).
  rewrite parse_chars_quote_units. cbn [mbind option_bind].
  change (skip_whitespace (58 :: ?t)) with (58 :: t).
  change (58 =? 58) with true. cbv iota.
  rewrite parse_value_number. cbn [mbind option_bind].
  reflexivity.
Qed.

Lemma stringify_record_typed r rest :
  well_typed r →
  stringify_record r ++ rest
  = 123 :: property (utf16 "id") (QuoteJSONString (Record.id r))
    ++ 44 :: property (utf16 "originalText")
               (QuoteJSONString (Record.originalText r))
    ++ 44 :: property (utf16 "translatedText")
               (QuoteJSONString (ToString (Record.translatedText r)))
    ++ 44 :: property (utf16 "fromLang")
               (QuoteJSONString (Record.fromLang r))
    ++ 44 :: property (utf16 "toLang") (QuoteJSONString (Record.toLang r))
    ++ 44 :: property (utf16 "timestamp")
               (Number_toString (Record.timestamp r))
    ++ 125 :: rest.
Proof.
  intros [t Ht]. unfold stringify_record. rewrite Ht.
  cbn [stringify_value from_option app join_commas ToString].
  repeat (rewrite <- app_assoc || rewrite <- app_comm_cons). reflexivity.
Qed.

Lemma property_head k v t : ∃ u, property k v ++ t = dquote :: u.
Proof. unfold property, QuoteJSONString. simpl. eauto. Qed.

Lemma parse_value_record f r rest :
  well_typed r → (8 ≤ f)%nat →
  parse_value f (stringify_record r ++ rest) = Some (json_of_record r, rest).
Proof.
  intros Hr Hf. do 8 (destruct f as [|f]; [lia|]). clear Hf.
  rewrite (stringify_record_typed r rest Hr).
  match goal with
  | |- parse_value _ (123 :: ?t) = _ => set (body := t)
  end.
  change (parse_value (S ?n) (123 :: body))
    with (match skip_whitespace body with
          | c' :: r' =>
            if c' =? 125 then Some (JObject [], r')
            else '(ms, r'') ← parse_members n body; Some (JObject ms, r'')
          | [] => None
          end).
  assert (Hskip : ∃ u, skip_whitespace body = dquote :: u).
  { unfold body.
    match goal with
    | |- ∃ u, skip_whitespace (property ?k ?v ++ ?t) = _ =>
      destruct (property_head k v t) as [u ->]
    end. by exists u. }
  destruct Hskip as [u ->]. change (dquote =? 125) with false. cbv iota.
  unfold body. rewrite !parse_members_string, parse_members_last.
  reflexivity.
Qed.

Lemma stringify_record_head r t : ∃ u, stringify_record r ++ t = 123 :: u.
Proof. unfold stringify_record. simpl. eauto. Qed.

Lemma parse_elements_records f (h : list TranslationRecord) rest :
  Forall well_typed h → h ≠ [] → (length h + 8 ≤ f)%nat →
  parse_elements f (join_commas (stringify_record <$> h) ++ 93 :: rest)
  = Some (json_of_record <$> h, rest).
Proof.
  revert f. induction h as [|r h IH]; intros f Hh Hne Hf; [done|].
  apply Forall_cons in Hh as [Hr Hh].
  destruct f as [|f]; [simpl in Hf; lia|].
  change (parse_elements (S f) ?s)
    with ('(v, r') ← parse_value f s;
          match skip_whitespace r' with
          | c :: r'' =>
            if c =? 44 then
              '(vs, r3) ← parse_elements f r''; Some (v :: vs, r3)
            else if c =? 93 then Some ([v], r'')
            else None
          | [] => None
          end).
  destruct h as [|r2 h].
  - cbn [fmap list_fmap join_commas].
    rewrite parse_value_record by (done || simpl in Hf; lia).
    reflexivity.
  - change (join_commas (stringify_record <$> r :: r2 :: h))
      with (stringify_record r
            ++ 44 :: join_commas (stringify_record <$> r2 :: h)).
    rewrite <- app_assoc, <- app_comm_cons.
    rewrite parse_value_record by (done || simpl in Hf; lia).
    cbn [mbind option_bind].
    change (skip_whitespace (44 :: ?t)) with (44 :: t).
    change (44 =? 44) with true. cbv iota.
    rewrite IH by (done || simpl in *; lia). reflexivity.
Qed.

Lemma join_commas_length (h : list TranslationRecord) :
  (2 * length h ≤ length (join_commas (stringify_record <$> h)))%nat.
Proof.
  induction h as [|r h IH]; [done|].
  assert (Hr : (2 ≤ length (stringify_record r))%nat).
  { unfold stringify_record. simpl. rewrite length_app. simpl. lia. }
  destruct h as [|r2 h]; [simpl in *; lia|].
  change (join_commas (stringify_record <$> r :: r2 :: h))
    with (stringify_record r
          ++ 44 :: join_commas (stringify_record <$> r2 :: h)).
  rewrite length_app. simpl in *. lia.
Qed.

Lemma record_of_json_of_record r :
  well_typed r → record_of_json (json_of_record r) = Some r.
Proof.
  intros [t Ht]. destruct r as [id orig tr from to ts]. simpl in Ht. subst tr.
  vm_compute. reflexivity.
Qed.

Lemma history_of_json_of_records h :
  Forall well_typed h →
  history_of_json (JArray (json_of_record <$> h)) = Some h.
Proof.
  intros Hh. unfold history_of_json. apply mapM_Some.
  induction Hh as [|r h Hr Hh IH]; constructor; [|done].
  by apply record_of_json_of_record.
Qed.

(** What was written is read back. *)
Lemma JSON_parse_stringify (h : list TranslationRecord) :
  Forall well_typed h →
  JSON_parse (JSON_stringify h) = Some (JArray (json_of_record <$> h)).
Proof.
  intros Hh. unfold JSON_parse, JSON_stringify.
  set (text := 91 :: join_commas (stringify_record <$> h) ++ [93]).
  assert (Hlen : (2 * length h + 2 ≤ length text)%nat).
  { unfold text. simpl. rewrite length_app. simpl.
    pose proof (join_commas_length h). lia. }
  destruct (2 * length text + 2)%nat as [|f] eqn:Hfuel; [lia|].
  unfold text at 1.
  change (parse_value (S f) (91 :: ?t))
    with (match skip_whitespace t with
          | c' :: r' =>
            if c' =? 93 then Some (JArray [], r')
            else '(items, r'') ← parse_elements f t; Some (JArray items, r'')
          | [] => None
          end).
  destruct h as [|r h]; [reflexivity|].
  assert (Hskip : ∃ u, skip_whitespace
                         (join_commas (stringify_record <$> r :: h) ++ [93])
                       = 123 :: u).
  { destruct h as [|r2 h].
    - cbn [fmap list_fmap join_commas].
      destruct (stringify_record_head r [93]) as [u ->]. by exists u.
    - change (join_commas (stringify_record <$> r :: r2 :: h))
        with (stringify_record r
              ++ 44 :: join_commas (stringify_record <$> r2 :: h)).
      rewrite <- app_assoc.
      match goal with
      | |- ∃ u, skip_whitespace (stringify_record r ++ ?t) = _ =>
        destruct (stringify_record_head r t) as [u ->]
      end. by exists u. }
  destruct Hskip as [u ->]. change (123 =? 93) with false. cbv iota.
  rewrite parse_elements_records by (done || simpl in *; lia).
  reflexivity.
Qed.

(** ** Persistence *)

Lemma load_persisted (st st0 : AppState)
    (localStorage : gmap jsstring jsstring) :
  Forall well_typed (history st) →
  load_history (persist_history st localStorage) st0
  = Some (setHistory (λ _, history st) st0).
Proof.
  intros Hh. unfold load_history, persist_history.
  rewrite lookup_insert_eq. rewrite bool_decide_eq_false_2 by done.
  rewrite (JSON_parse_stringify _ Hh). cbn [mbind option_bind].
  by rewrite (history_of_json_of_records _ Hh).
Qed.

Lemma mount_persisted (onLine : bool) (st : AppState)
    (localStorage : gmap jsstring jsstring) :
  Forall well_typed (history st) →
  mount onLine (persist_history st localStorage)
  = Some (setHistory (λ _, history st) (initial_state onLine),
          persist_history st localStorage).
Proof.
  intros Hh. unfold mount. rewrite (load_persisted _ _ _ Hh).
  cbn [mbind option_bind].
  assert (Hsaved : persist_history st localStorage !! HISTORY_KEY
                   = Some (JSON_stringify (history st)))
    by apply lookup_insert_eq.
  rewrite Hsaved, bool_decide_eq_false_2 by done.
  unfold persist_history. cbn [history setHistory].
  by rewrite !insert_insert_eq.
Qed.


End Json.


(** A record that holds an inherited function, as [handleOfflineTranslate]
    makes of the text [constructor], is written without its
    [translatedText] and is not read back as it was. *)
Lemma inherited_translation_not_restored :
  let st := (handleOfflineTranslate 0 0 (utf16 "constructor")
               (initial_state true)).1 in
  JSON_parse (JSON_stringify (history st)) ≫= history_of_json = None.
Proof. by vm_compute. Qed.

(** ** The bound of the history *)

Section HistoryBound.




End HistoryBound.


(** * Further properties of the code *)

(** ** Offline translation: known phrases, blank texts *)

Section OfflineMore.

Lemma dictionary_entries_check :
  map_Forall (λ _ (d : gmap jsstring jsstring),
    map_Forall (λ k v, normalize k = k ∧ v ≠ []) d ∧ d !! [] = None)
    OFFLINE_DICTIONARY.
Proof. apply (bool_decide_unpack _). vm_compute. reflexivity. Qed.

Lemma phrase_hit (from to : Language)
    (d : gmap jsstring jsstring) (text v : jsstring) :
  OFFLINE_DICTIONARY !! pair_key from to = Some d →
  d !! normalize text = Some v → v ≠ [] →
  translate_offline from to text = VString v.
Proof.
  intros Hd Hk Hv.
  unfold translate_offline, lookup_phrase, get. rewrite Hd, Hk.
  simpl. by rewrite bool_decide_eq_false_2.
Qed.

(** X1: every entry of the phrase book can be hit.  Its key is its own
    lowercased, trimmed form and its translation is not empty, so a
    text that normalizes to the key, in whatever letter case and with
    whatever white space around it, is translated by the entry. *)
Theorem known_phrase_found (from to : Language)
    (d : gmap jsstring jsstring) (k v : jsstring) :
  OFFLINE_DICTIONARY !! pair_key from to = Some d → d !! k = Some v →
  normalize k = k ∧ v ≠ []
  ∧ ∀ text, normalize text = k → translate_offline from to text = VString v.
Proof.
  intros Hd Hk.
  destruct (dictionary_entries_check _ _ Hd) as [Hall _].
  destruct (Hall _ _ Hk) as [Hnorm Hv].
  split; [done|]. split; [done|]. intros text Htext.
  apply (phrase_hit from to d); [done | by rewrite Htext | done].
Qed.

Lemma known_phrase_found_witness :
  translate_offline (fromLang (initial_state true))
    (toLang (initial_state true)) (utf16 "  MERCI ")
  = VString (utf16 "thank you").
Proof.
  assert (Hd : OFFLINE_DICTIONARY
                 !! pair_key (fromLang (initial_state true))
                      (toLang (initial_state true)) = Some fr_en)
    by reflexivity.
  assert (Hk : fr_en !! utf16 "merci" = Some (utf16 "thank you"))
    by reflexivity.
  destruct (known_phrase_found _ _ _ _ _ Hd Hk) as (_ & _ & H).
  apply H. vm_compute. reflexivity.
Defined.

(** X2: a text that the French-English table knows, translated and the
    translation translated back with the selection swapped, gives the
    phrase of the table; and likewise from English. *)
Theorem translated_there_and_back (fr en : Language) (text q : jsstring) :
  Types.code fr = utf16 "fr" → Types.code en = utf16 "en" →
  (fr_en !! normalize text = Some q →
   translate_offline fr en text = VString q
   ∧ translate_offline en fr q = VString (normalize text))
  ∧ (en_fr !! normalize text = Some q →
     translate_offline en fr text = VString q
     ∧ translate_offline fr en q = VString (normalize text)).
Proof.
  intros Hfr Hen.
  assert (Hfe : OFFLINE_DICTIONARY !! pair_key fr en = Some fr_en)
    by (unfold pair_key; rewrite Hfr, Hen; reflexivity).
  assert (Hef : OFFLINE_DICTIONARY !! pair_key en fr = Some en_fr)
    by (unfold pair_key; rewrite Hfr, Hen; reflexivity).
  destruct (dictionary_entries_check _ _ Hfe) as [Afe _].
  destruct (dictionary_entries_check _ _ Hef) as [Aef _].
  split; intros Hq.
  - pose proof (fr_en_inverse _ _ Hq) as Hback.
    destruct (Afe _ _ Hq) as [_ Hv], (Aef _ _ Hback) as [Hn Hv'].
    split; [by apply (phrase_hit fr en fr_en)|].
    apply (phrase_hit en fr en_fr); [done | by rewrite Hn | done].
  - pose proof (en_fr_inverse _ _ Hq) as Hback.
    destruct (Aef _ _ Hq) as [_ Hv], (Afe _ _ Hback) as [Hn Hv'].
    split; [by apply (phrase_hit en fr en_fr)|].
    apply (phrase_hit fr en fr_en); [done | by rewrite Hn | done].
Qed.

Lemma translated_there_and_back_witness :
  let fr := fromLang (initial_state true) in
  let en := toLang (initial_state true) in
  translate_offline fr en (utf16 " Où est la gare ? ")
  = VString (utf16 "where is the station?")
  ∧ translate_offline en fr (utf16 "where is the station?")
    = VString (utf16 "où est la gare ?").
Proof.
  intros fr en.
  destruct (translated_there_and_back fr en (utf16 " Où est la gare ? ")
              (utf16 "where is the station?")) as [H _];
    [reflexivity | reflexivity |].
  destruct H as [H1 H2]; [by vm_compute|].
  split; [exact H1|]. rewrite H2. by vm_compute.
Defined.

Lemma trimStart_blank text :
  Forall (λ c, is_whitespace c = true) text → trimStart text = [].
Proof. induction 1 as [|c text Hc _ IH]; [done|]. simpl. by rewrite Hc. Qed.

Lemma normalize_blank text :
  Forall (λ c, is_whitespace c = true) text → normalize text = [].
Proof.
  intros Hblank. unfold normalize, trim.
  rewrite toLowerCase_blank, trimStart_blank by done. reflexivity.
Qed.

(** X3: a text that is empty or all white space gets the fallback
    string, whatever the two languages: no table has the empty key. *)
Theorem blank_text_falls_back (from to : Language) (text : jsstring) :
  Forall (λ c, is_whitespace c = true) text →
  translate_offline from to text = VString (fallback text).
Proof.
  intros Hblank. unfold translate_offline, lookup_phrase.
  rewrite (normalize_blank _ Hblank).
  destruct (OFFLINE_DICTIONARY !! pair_key from to) as [d|] eqn:Hd; [|done].
  destruct (dictionary_entries_check _ _ Hd) as [_ Hempty].
  unfold get. rewrite Hempty. reflexivity.
Qed.

Lemma blank_text_falls_back_witness :
  translate_offline (fromLang (initial_state true))
    (toLang (initial_state true)) [32; 9]
  = VString (fallback [32; 9]).
Proof. apply blank_text_falls_back. by repeat constructor. Defined.

Lemma translate_offline_truthy from to text :
  truthy (translate_offline from to text) = true.
Proof.
  unfold translate_offline.
  destruct (truthy (lookup_phrase _ _)) eqn:Ht; [done|]. reflexivity.
Qed.

(** X4: what [handleOfflineTranslate] shows as the translation, what it
    has spoken and what it stores in the new record are one value, and
    that value is never [undefined] nor the empty string; it is spoken
    in the language translated to; what is shown as the user's side and
    stored as [originalText] is the text as it was entered; and neither
    the selection nor [isListening] changes. *)
Theorem offline_translation_shown_spoken_stored (now_id now_ts : Z)
    (text : jsstring) (st : AppState) :
  let result := handleOfflineTranslate now_id now_ts text st in
  let shown := model (currentTranscription result.1) in
  truthy shown = true
  ∧ result.2 = [Speak shown (Types.code (toLang st))]
  ∧ Record.translatedText <$> head (history result.1) = Some shown
  ∧ user (currentTranscription result.1) = text
  ∧ Record.originalText <$> head (history result.1) = Some text
  ∧ fromLang result.1 = fromLang st ∧ toLang result.1 = toLang st
  ∧ isListening result.1 = isListening st.
Proof.
  simpl. split; [apply translate_offline_truthy | done].
Qed.

End OfflineMore.

(** ** The history: order and ids *)

Section HistoryMore.

Lemma take_app_take {A} (n m : nat) (l x : list A) :
  (n ≤ m)%nat → take n (l ++ take m x) = take n (l ++ x).
Proof.
  revert n. induction l as [|a l IH]; intros n Hn; simpl.
  - rewrite take_take. f_equal. lia.
  - destruct n as [|n]; [done|]. simpl. f_equal. apply IH. lia.
Qed.

Lemma offline_all_selection (xs : list (Z * Z * jsstring)) (st : AppState) :
  fromLang (offline_all xs st) = fromLang st
  ∧ toLang (offline_all xs st) = toLang st.
Proof.
  revert st. induction xs as [|x xs IH]; intros st; [done|].
  change (offline_all (x :: xs) st)
    with (offline_all xs (handleOfflineTranslate x.1.1 x.1.2 x.2 st).1).
  destruct (IH (handleOfflineTranslate x.1.1 x.1.2 x.2 st).1) as [-> ->].
  done.
Qed.

(** X5: after offline translations made in turn, the history is the
    records of these translations, the newest first, followed by the
    records that were there before, cut after fifty entries; the record
    of a translation holds the text entered, its translation under the
    selection, the two language codes and the two readings of the
    clock. *)
Theorem history_newest_first (xs : list (Z * Z * jsstring)) (st : AppState) :
  (length (history st) ≤ 50)%nat ∨ xs ≠ [] →
  history (offline_all xs st)
  = take 50 (reverse (offline_record st <$> xs) ++ history st).
Proof.
  revert st. induction xs as [|[[now_id now_ts] text] xs IH]; intros st Hst.
  - simpl. rewrite take_ge; [done|]. by destruct Hst.
  - change (offline_all (((now_id, now_ts), text) :: xs) st)
      with (offline_all xs (handleOfflineTranslate now_id now_ts text st).1).
    destruct (handleOfflineTranslate_state now_id now_ts text st) as [_ Hh].
    cbv zeta in Hh.
    rewrite IH by (left; rewrite Hh; apply push_record_length).
    rewrite Hh. unfold push_record.
    rewrite take_app_take by done.
    rewrite fmap_cons, reverse_cons, <- app_assoc.
    assert (Hsame : offline_record
                      (handleOfflineTranslate now_id now_ts text st).1
                    = offline_record st) by reflexivity.
    rewrite Hsame. reflexivity.
Qed.

Lemma history_newest_first_witness :
  Record.originalText <$>
    history (offline_all [(1%Z, 1%Z, utf16 "oui"); (2%Z, 2%Z, utf16 "non")]
               (initial_state true))
  = [utf16 "non"; utf16 "oui"].
Proof.
  rewrite history_newest_first by (left; simpl; lia). reflexivity.
Defined.

Lemma Number_toString_inj a b :
  Number_toString a = Number_toString b → a = b.
Proof.
  intros Heq.
  pose proof (parse_number_Number_toString a []) as Ha.
  rewrite Heq, parse_number_Number_toString in Ha. congruence.
Qed.

(** X6: two records made by [handleOfflineTranslate] have the same [id]
    exactly when [Date.now()] read the same millisecond for both: the
    decimal form of the reading tells the readings apart, and nothing
    else goes into the id. *)
Theorem record_ids_follow_the_clock (a b ts ts' : Z) (text text' : jsstring)
    (st st' : AppState) :
  Record.id <$> head (history (handleOfflineTranslate a ts text st).1)
  = Record.id <$> head (history (handleOfflineTranslate b ts' text' st').1)
  ↔ a = b.
Proof.
  simpl. split.
  - intros Heq. apply Number_toString_inj. congruence.
  - by intros ->.
Qed.

Lemma record_ids_follow_the_clock_witness :
  Record.id <$> head (history (handleOfflineTranslate 5 5 (utf16 "oui")
                                 (initial_state true)).1)
  = Record.id <$> head (history (handleOfflineTranslate 5 6 (utf16 "non")
                                   (initial_state false)).1).
Proof. by apply record_ids_follow_the_clock. Defined.

End HistoryMore.

(** ** The selectors: any language, every language *)

Section SelectorsMore.

Lemma indexOf_from_range i l x :
  indexOf_from i l x = (-1)%Z
  ∨ (i ≤ indexOf_from i l x < i + Z.of_nat (length l))%Z.
Proof.
  revert i. induction l as [|y l IH]; intros i; [by left|].
  cbn [indexOf_from length]. destruct (decide (y = x)); [right; lia|].
  destruct (IH (i + 1)%Z) as [->|?]; [by left | right; lia].
Qed.

Lemma indexOf_from_notin i l x : x ∉ l → indexOf_from i l x = (-1)%Z.
Proof.
  revert i. induction l as [|y l IH]; intros i Hx; [done|].
  apply not_elem_of_cons in Hx as [Hxy Hx].
  cbn [indexOf_from]. destruct (decide (y = x)); [congruence|]. by apply IH.
Qed.

Lemma next_language_total l : is_Some (next_language l).
Proof.
  unfold next_language, indexOf, at_index.
  rewrite SUPPORTED_LANGUAGES_length.
  destruct (indexOf_from_range 0 SUPPORTED_LANGUAGES l) as [->|Hi].
  - change (Z.rem (-1 + 1) (Z.of_nat 11)) with 0%Z.
    apply lookup_lt_is_Some. rewrite SUPPORTED_LANGUAGES_length. simpl. lia.
  - rewrite SUPPORTED_LANGUAGES_length in Hi.
    pose proof (Z.rem_bound_pos (indexOf_from 0 SUPPORTED_LANGUAGES l + 1)
                  (Z.of_nat 11)) as Hr.
    destruct (Z.ltb_spec (Z.rem (indexOf_from 0 SUPPORTED_LANGUAGES l + 1)
                            (Z.of_nat 11)) 0); [lia|].
    apply lookup_lt_is_Some. rewrite SUPPORTED_LANGUAGES_length. lia.
Qed.

Lemma tapped_in_table (l : Language) : tapped l ∈ SUPPORTED_LANGUAGES.
Proof.
  destruct (next_language_total l) as [l' Hl'].
  unfold tapped. rewrite Hl'. unfold next_language, at_index in Hl'.
  destruct (_ <? 0)%Z; [done|]. by eapply list_elem_of_lookup_2.
Qed.

(** X7: the expression of the selectors never reads outside the table:
    for any language at all it gives an entry of [SUPPORTED_LANGUAGES],
    and for one that is not in the table ([indexOf] is -1) the first
    entry. *)
Theorem selector_lands_in_table (l : Language) :
  tapped l ∈ SUPPORTED_LANGUAGES
  ∧ next_language l = Some (tapped l)
  ∧ (l ∉ SUPPORTED_LANGUAGES →
     SUPPORTED_LANGUAGES !! 0%nat = Some (tapped l)).
Proof.
  destruct (next_language_total l) as [l' Hl'].
  assert (Htap : tapped l = l') by (unfold tapped; by rewrite Hl').
  split; [|split].
  - rewrite Htap. unfold next_language, at_index in Hl'.
    destruct (_ <? 0)%Z; [done|]. by eapply list_elem_of_lookup_2.
  - by rewrite Htap.
  - intros Hl. rewrite Htap, <- Hl'. unfold next_language, indexOf.
    rewrite (indexOf_from_notin _ _ _ Hl). reflexivity.
Qed.

Lemma selector_lands_in_table_witness :
  let stranger := {| Types.code := utf16 "xx"; Types.name := [];
                     Types.flag := []; Types.voice := [] |} in
  SUPPORTED_LANGUAGES !! 0%nat = Some (tapped stranger).
Proof.
  intros stranger.
  apply (proj2 (proj2 (selector_lands_in_table stranger))).
  intros Hin. apply list_elem_of_In in Hin.
  assert (Hcodes : forallb (λ l, negb (bool_decide
                      (Types.code l = utf16 "xx"))) SUPPORTED_LANGUAGES = true)
    by (vm_compute; reflexivity).
  rewrite forallb_forall in Hcodes. specialize (Hcodes _ Hin).
  apply negb_true_iff, bool_decide_eq_false in Hcodes. by apply Hcodes.
Defined.

Lemma reach_check :
  forallb (λ l, forallb (λ l',
    existsb (λ k, bool_decide (Nat.iter k tapped l = l')) (seq 0 11))
    SUPPORTED_LANGUAGES) SUPPORTED_LANGUAGES = true.
Proof. vm_compute. reflexivity. Qed.

Lemma tapped_reaches l l' :
  l ∈ SUPPORTED_LANGUAGES → l' ∈ SUPPORTED_LANGUAGES →
  ∃ k, (k < 11)%nat ∧ Nat.iter k tapped l = l'.
Proof.
  intros Hl%list_elem_of_In Hl'%list_elem_of_In.
  pose proof reach_check as H.
  rewrite forallb_forall in H. specialize (H _ Hl).
  rewrite forallb_forall in H. specialize (H _ Hl').
  apply existsb_exists in H as (k & Hk & Heq).
  apply in_seq in Hk. apply bool_decide_eq_true_1 in Heq.
  exists k. split; [lia | done].
Qed.

(** X8: while not listening, each selector can be brought from any
    language of the table to any other one in at most ten taps, the
    other selector staying where it is. *)
Theorem every_language_reachable (st : AppState) (target : Language) :
  isListening st = false → target ∈ SUPPORTED_LANGUAGES →
  (fromLang st ∈ SUPPORTED_LANGUAGES →
   ∃ k, (k ≤ 10)%nat ∧ fromLang (Nat.iter k tapFromLang st) = target
        ∧ toLang (Nat.iter k tapFromLang st) = toLang st)
  ∧ (toLang st ∈ SUPPORTED_LANGUAGES →
     ∃ k, (k ≤ 10)%nat ∧ toLang (Nat.iter k tapToLang st) = target
          ∧ fromLang (Nat.iter k tapToLang st) = fromLang st).
Proof.
  intros Hst Htarget. split; intros Hin.
  - destruct (tapped_reaches _ _ Hin Htarget) as (k & Hk & Heq).
    exists k. rewrite (iter_tapFromLang k st Hst), Heq.
    split; [lia | done].
  - destruct (tapped_reaches _ _ Hin Htarget) as (k & Hk & Heq).
    exists k. rewrite (iter_tapToLang k st Hst), Heq.
    split; [lia | done].
Qed.

Lemma every_language_reachable_witness :
  ∃ k, (k ≤ 10)%nat
       ∧ fromLang (Nat.iter k tapFromLang (initial_state true))
         = toLang (initial_state true).
Proof.
  destruct (every_language_reachable (initial_state true)
              (toLang (initial_state true)) eq_refl) as [H _].
  - apply (list_elem_of_lookup_2 _ 1%nat). reflexivity.
  - destruct H as (k & Hk & Heq & _).
    + apply (list_elem_of_lookup_2 _ 0%nat). reflexivity.
    + by exists k.
Defined.

Lemma app_step_selection {T} (st : AppState) (e : app_event T) :
  fromLang st ∈ SUPPORTED_LANGUAGES → toLang st ∈ SUPPORTED_LANGUAGES →
  fromLang (app_step st e) ∈ SUPPORTED_LANGUAGES
  ∧ toLang (app_step st e) ∈ SUPPORTED_LANGUAGES.
Proof.
  intros Hf Ht.
  destruct e as [now_id now_ts text|from to now_id now_ts m| | |env].
  - done.
  - unfold app_step, onmessage_state.
    destruct (inputTranscription m), (outputTranscription m),
      (turnComplete m); try done;
      match goal with
      | |- context [if ?b then _ else _] => by destruct b
      end.
  - unfold app_step, tapFromLang. destruct (isListening st); [done|].
    split; [apply tapped_in_table | done].
  - unfold app_step, tapToLang. destruct (isListening st); [done|].
    split; [done | apply tapped_in_table].
  - unfold app_step, startSession, startOfflineListening.
    repeat case_match; done.
Qed.

(** X9: in every run of the handlers from the first render both
    selections are entries of [SUPPORTED_LANGUAGES]. *)
Theorem selection_always_supported {T} (onLine : bool)
    (es : list (app_event T)) :
  fromLang (app_run (initial_state onLine) es) ∈ SUPPORTED_LANGUAGES
  ∧ toLang (app_run (initial_state onLine) es) ∈ SUPPORTED_LANGUAGES.
Proof.
  unfold app_run.
  assert (Hgen : ∀ st,
    fromLang st ∈ SUPPORTED_LANGUAGES → toLang st ∈ SUPPORTED_LANGUAGES →
    fromLang (foldl app_step st es) ∈ SUPPORTED_LANGUAGES
    ∧ toLang (foldl app_step st es) ∈ SUPPORTED_LANGUAGES).
  { induction es as [|e es IH]; intros st Hf Ht; [done|].
    destruct (app_step_selection st e Hf Ht). by apply IH. }
  apply Hgen.
  - apply (list_elem_of_lookup_2 _ 0%nat). reflexivity.
  - apply (list_elem_of_lookup_2 _ 1%nat). reflexivity.
Qed.

End SelectorsMore.

(** ** Starting and stopping *)

Section SessionMore.

Context {T : Type} `{Number T}.

(** X10: [startSession] changes nothing of the state but [isListening],
    and sets that only when the component is online, a non-empty key
    is there, and [getUserMedia] and the connection both resolve; an
    online start that does not come to listen ends in an alert.
    Offline it leaves the state as it is: it starts the recognition in
    the language translated from, and [isListening] is set by the
    recognition's [onstart]; without speech recognition it only
    alerts. *)
Theorem startSession_outcome (env : Env) (st : AppState) :
  isListening st = false →
  let result := startSession env st in
  result.1 = setIsListening (isListening result.1) st
  ∧ (isListening result.1 = true ↔
     isActuallyOffline st = false
     ∧ (∃ key, API_KEY env = Some key ∧ key ≠ [])
     ∧ getUserMedia_resolves env = true ∧ connect_resolves env = true)
  ∧ (isActuallyOffline st = false → isListening result.1 = false →
     ∃ msg, last result.2 = Some (Alert msg))
  ∧ (isActuallyOffline st = true →
     result.1 = st
     ∧ (SpeechRecognition env = true →
        result.2 = [RecognitionStart (Types.code (fromLang st)) true false]
        ∧ onstart result.1 = setIsListening true st)
     ∧ (SpeechRecognition env = false → ∃ msg, result.2 = [Alert msg])).
Proof.
  intros Hidle. cbv zeta.
  assert (Hsame : st = setIsListening false st)
    by (rewrite <- Hidle; by destruct st).
  unfold startSession, startOfflineListening.
  destruct (isActuallyOffline st) eqn:Hoff.
  { assert (Hres : (if negb (SpeechRecognition env)
             then (st, [Alert (utf16 "Reconnaissance vocale non supportée sur cet appareil en mode hors ligne.")])
             else (st, [RecognitionStart (Types.code (fromLang st)) true false])).1
            = st) by by destruct (SpeechRecognition env).
    rewrite Hres, Hidle. split; [done|]. split; [|split; [done|]].
    - split; [done | by intros [? _]].
    - intros _. split; [done|].
      destruct (SpeechRecognition env); cbn [negb snd].
      + split; [done | by intros ?].
      + split; [by intros ? | intros _; by eexists]. }
  destruct (API_KEY env) as [key|] eqn:Hkey.
  2:{ cbn [fst snd]. rewrite Hidle. split; [done|]. split; [|split; [|done]].
      - split; [done | by intros (_ & (? & ? & _) & _)].
      - intros _ _. by eexists. }
  destruct (decide (key = [])) as [->|Hne].
  { rewrite bool_decide_eq_true_2 by done. cbn [fst snd].
    rewrite Hidle. split; [done|]. split; [|split; [|done]].
    - split; [done|]. intros (_ & (key & Hk & Hn) & _). congruence.
    - intros _ _. by eexists. }
  rewrite bool_decide_eq_false_2 by done.
  destruct (getUserMedia_resolves env) eqn:Hmic; cbn [negb].
  2:{ cbn [fst snd]. rewrite Hidle. split; [done|]. split; [|split; [|done]].
      - split; [done | by intros (_ & _ & ? & _)].
      - intros _ _. by eexists. }
  destruct (connect_resolves env) eqn:Hconn; cbn [negb fst snd].
  - split; [reflexivity|]. split; [|split; [|done]].
    + split; [intros _; eauto 10 | done].
    + done.
  - rewrite Hidle. split; [done|]. split; [|split; [|done]].
    + split; [done | by intros (_ & _ & _ & ?)].
    + intros _ _. by eexists.
Qed.

Lemma startSession_outcome_witness :
  let env := {| API_KEY := Some (utf16 "key"); SpeechRecognition := true;
                getUserMedia_resolves := false; connect_resolves := true |} in
  ∃ msg, last (startSession env (initial_state true)).2 = Some (Alert msg).
Proof.
  intros env.
  destruct (startSession_outcome env (initial_state true) eq_refl)
    as (_ & _ & Halert & _).
  apply Halert; reflexivity.
Defined.

Lemma startSession_state (env : Env) (st : AppState) :
  (startSession env st).1 = st
  ∨ (startSession env st).1 = setIsListening true st.
Proof.
  unfold startSession, startOfflineListening.
  repeat case_match; auto.
Qed.

Lemma setIsListening_idle b st :
  isListening st = false → setIsListening false (setIsListening b st) = st.
Proof. intros Hst. destruct st. simpl in *. by subst. Qed.

(** X11: a session started from the idle component and stopped again
    leaves the selection, the flags and the history as they were; the
    transcription is kept when the component is offline and emptied
    when it is online; nothing is left queued for playback and the
    recognition ref is [null]. *)
Theorem stop_after_start (env : Env) (w : World T) :
  isListening (w_state w) = false →
  let w1 := (startSession_world env w).1 in
  let w2 := (stopSession (isActuallyOffline (w_state w1)) w1).1 in
  w_state w2
  = (if isActuallyOffline (w_state w) then w_state w
     else setCurrentTranscription
            (λ _, {| user := []; model := VString [] |}) (w_state w))
  ∧ recognitionRef (w_refs w2) = false
  ∧ sources (w_playback w2) = []
  ∧ nextStartTime (w_playback w2) = num_zero.
Proof.
  intros Hidle. unfold startSession_world.
  destruct (startSession env (w_state w)) as [st1 effects] eqn:Hstart.
  assert (Hst1 : st1 = w_state w ∨ st1 = setIsListening true (w_state w)).
  { pose proof (startSession_state env (w_state w)) as Hs.
    by rewrite Hstart in Hs. }
  assert (Hback : setIsListening false st1 = w_state w).
  { destruct Hst1 as [-> | ->].
    - rewrite <- (setIsListening_idle false (w_state w)) at 2 by done.
      by destruct (w_state w).
    - by apply setIsListening_idle. }
  assert (Hoff : isActuallyOffline st1 = isActuallyOffline (w_state w))
    by by destruct Hst1 as [-> | ->].
  cbv zeta. unfold stopSession. cbn [fst snd w_state w_refs w_playback
    stopAllAudio recognitionRef sources nextStartTime].
  rewrite Hoff, Hback. done.
Qed.

(** X12: [stopSession] called again gives the same component again;
    the second call does not stop the recognition, whose ref the first
    has set to [null], and stops no audio source, the set having been
    emptied by the first; but it stops the tracks and closes the input
    context once more when their refs hold an object, as these are never
    cleared. *)
Theorem stopSession_again (offline : bool) (w : World T) :
  let once := stopSession offline w in
  let twice := stopSession offline once.1 in
  twice.1 = once.1
  ∧ (RecognitionStop ∉ twice.2)
  ∧ AudioStop (StopAll (sources (w_playback w))) ∈ once.2
  ∧ (∀ stopped, AudioStop (StopAll stopped) ∈ twice.2 → stopped = [])
  ∧ (mediaStreamRef (w_refs w) = true → TracksStop ∈ twice.2)
  ∧ (inputAudioCtxRef (w_refs w) = true → InputContextClose ∈ twice.2).
Proof.
  cbv zeta. unfold stopSession.
  cbn [fst snd w_state w_refs w_playback stopAllAudio recognitionRef
       mediaStreamRef inputAudioCtxRef sources nextStartTime created].
  split; [|split; [|split; [|split; [|split]]]].
  - by destruct offline.
  - destruct (mediaStreamRef (w_refs w)), (inputAudioCtxRef (w_refs w));
      cbn; rewrite ?not_elem_of_cons; repeat split; try done;
      apply not_elem_of_nil.
  - rewrite !elem_of_app. right. right. right. cbn. apply elem_of_cons.
    by left.
  - intros stopped.
    destruct (mediaStreamRef (w_refs w)), (inputAudioCtxRef (w_refs w));
      cbn; rewrite ?elem_of_cons, elem_of_nil; intros Hin;
      destruct_or!; congruence.
  - intros ->. cbn. apply elem_of_cons. by left.
  - intros ->. destruct (mediaStreamRef (w_refs w)); cbn;
      rewrite ?elem_of_cons; auto.
Qed.


Lemma handleOfflineTranslate_of_current now_id now_ts text st :
  handleOfflineTranslate_of (fromLang st) (toLang st) now_id now_ts text st
  = handleOfflineTranslate now_id now_ts text st.
Proof. reflexivity. Qed.

(** X14: a recognition result whose first entry is not final shows the
    joined transcripts and changes nothing else; one whose first entry
    is final records one entry for the joined transcripts, stops
    listening, and leaves on display the translation that was
    recorded.  The translation and the language codes of the entry are
    those of the selection the recognition was started with, whatever
    the selection is by then. *)
Theorem onresult_interim_and_final (from to : Language) (now_id now_ts : Z)
    (first : SpeechResult) (more : list SpeechResult) (w : World T) :
  let joined := concat (transcript <$> first :: more) in
  let result := onresult from to now_id now_ts first more w in
  let st := w_state w in
  let st' := w_state result.1 in
  user (currentTranscription st') = joined
  ∧ fromLang st' = fromLang st ∧ toLang st' = toLang st
  ∧ (isFinal first = false →
     history st' = history st
     ∧ model (currentTranscription st') = model (currentTranscription st)
     ∧ isListening st' = isListening st ∧ result.2 = [])
  ∧ (isFinal first = true →
     isListening st' = false
     ∧ recognitionRef (w_refs result.1) = false
     ∧ model (currentTranscription st') = translate_offline from to joined
     ∧ history st'
       = push_record
           {| Record.id := Number_toString now_id;
              Record.originalText := joined;
              Record.translatedText := translate_offline from to joined;
              Record.fromLang := Types.code from;
              Record.toLang := Types.code to;
              Record.timestamp := now_ts |} (history st)
     ∧ inl (Speak (translate_offline from to joined) (Types.code to))
       ∈ result.2).
Proof.
  cbv zeta. unfold onresult. destruct (isFinal first).
  - unfold stopSession, handleOfflineTranslate_of.
    cbn [fst snd w_state w_refs w_playback stopAllAudio recognitionRef].
    split; [done|]. split; [done|]. split; [done|]. split; [done|].
    intros _. split; [done|]. split; [done|]. split; [done|].
    split; [done|]. cbn [fmap list_fmap app]. apply elem_of_cons. by left.
  - cbn [fst snd w_state]. split; [done|]. split; [done|]. split; [done|].
    split; [by intros _ | done].
Qed.

End SessionMore.

Lemma stop_after_start_witness :
  let env := {| API_KEY := Some (utf16 "key"); SpeechRecognition := true;
                getUserMedia_resolves := true; connect_resolves := true |} in
  let w := {| w_state := initial_state true;
              w_refs := {| recognitionRef := false; mediaStreamRef := false;
                           inputAudioCtxRef := false |};
              w_playback := {| nextStartTime := 7%Z; sources := [];
                               created := 0 |} |} in
  let w1 := (startSession_world env w).1 in
  isListening (w_state w1) = true
  ∧ history (w_state (stopSession (isActuallyOffline (w_state w1)) w1).1) = []
  ∧ nextStartTime
      (w_playback (stopSession (isActuallyOffline (w_state w1)) w1).1) = 0%Z.
Proof.
  intros env w w1. split; [reflexivity|].
  destruct (stop_after_start env w eq_refl) as (Hst & _ & _ & Hnext).
  cbv zeta in Hst, Hnext. fold w1 in Hst, Hnext.
  rewrite Hst. split; [reflexivity | exact Hnext].
Defined.

Lemma stopSession_again_witness :
  let w := {| w_state := initial_state true;
              w_refs := {| recognitionRef := true; mediaStreamRef := true;
                           inputAudioCtxRef := true |};
              w_playback := {| nextStartTime := 7%Z; sources := [];
                               created := 0 |} |} in
  InputContextClose ∈ (stopSession false (stopSession false w).1).2.
Proof.
  intros w.
  by apply (proj2 (proj2 (proj2 (proj2 (proj2 (stopSession_again false w)))))).
Defined.


Lemma onresult_interim_and_final_witness :
  let w := {| w_state := setIsListening true (initial_state false);
              w_refs := {| recognitionRef := true; mediaStreamRef := false;
                           inputAudioCtxRef := false |};
              w_playback := {| nextStartTime := 0%Z; sources := [];
                               created := 0 |} |} in
  let final := {| transcript := utf16 "Merci"; isFinal := true |} in
  let interim := {| transcript := utf16 "Mer"; isFinal := false |} in
  let fr := fromLang (initial_state false) in
  let en := toLang (initial_state false) in
  let tapped_since :=
    {| w_state := setFromLang en (w_state w); w_refs := w_refs w;
       w_playback := w_playback w |} in
  model (currentTranscription
           (w_state (onresult fr en 1 1 final [] tapped_since).1))
  = VString (utf16 "thank you")
  ∧ history (w_state (onresult fr en 1 1 interim [] w).1) = [].
Proof.
  intros w final interim fr en tapped_since.
  destruct (onresult_interim_and_final fr en 1 1 final [] tapped_since)
    as (_ & _ & _ & _ & Hfinal).
  destruct (onresult_interim_and_final fr en 1 1 interim [] w)
    as (_ & _ & _ & Hinterim & _).
  cbv zeta in Hfinal, Hinterim.
  destruct (Hfinal eq_refl) as (_ & _ & -> & _).
  destruct (Hinterim eq_refl) as (-> & _).
  split; [by vm_compute | reflexivity].
Defined.

(** ** The live session: transcriptions and turns *)

Section TurnsMore.

Context {T : Type}.

Implicit Types (m : LiveServerMessage T) (st : AppState).

Lemma onmessage_state_piece from to now_id now_ts m st s0 :
  turnComplete m = false →
  model (currentTranscription st) = VString s0 →
  let st' := onmessage_state from to now_id now_ts m st in
  history st' = history st
  ∧ user (currentTranscription st')
    = user (currentTranscription st) ++ input_piece m
  ∧ model (currentTranscription st') = VString (s0 ++ output_piece m).
Proof.
  intros Htc Hmodel. cbv zeta.
  unfold onmessage_state, input_piece, output_piece. rewrite Htc.
  destruct (inputTranscription m), (outputTranscription m);
    cbn [currentTranscription setCurrentTranscription user model history
         from_option]; rewrite ?Hmodel, ?app_nil_r; done.
Qed.

Lemma onmessage_all_pieces from to (ms : list (Z * Z * LiveServerMessage T))
    st s0 :
  Forall (λ x, turnComplete x.2 = false) ms →
  model (currentTranscription st) = VString s0 →
  let st' := onmessage_all from to ms st in
  history st' = history st
  ∧ user (currentTranscription st')
    = user (currentTranscription st) ++ concat (input_piece <$> ms.*2)
  ∧ model (currentTranscription st')
    = VString (s0 ++ concat (output_piece <$> ms.*2)).
Proof.
  intros Hms. revert st s0.
  induction Hms as [|[[now_id now_ts] m] ms Hm _ IH]; intros st s0 Hmodel.
  - cbn. by rewrite !app_nil_r.
  - change (onmessage_all from to (((now_id, now_ts), m) :: ms) st)
      with (onmessage_all from to ms
              (onmessage_state from to now_id now_ts m st)).
    destruct (onmessage_state_piece from to now_id now_ts m st s0 Hm Hmodel)
      as (Hh & Hu & Hv).
    destruct (IH _ _ Hv) as (Hh' & Hu' & Hv'). cbv zeta.
    rewrite Hh', Hu', Hv', Hh, Hu. cbn [fmap list_fmap snd concat].
    by rewrite <- !app_assoc.
Qed.

Lemma truthy_VString (s : jsstring) :
  truthy (VString s) = bool_decide (s ≠ []).
Proof.
  unfold truthy. destruct (decide (s = [])) as [->|Hs].
  - by rewrite bool_decide_eq_true_2, bool_decide_eq_false_2 by auto.
  - by rewrite bool_decide_eq_false_2, bool_decide_eq_true_2 by auto.
Qed.

Lemma onmessage_state_turn from to now_id now_ts m st s0 :
  turnComplete m = true →
  model (currentTranscription st) = VString s0 →
  let st' := onmessage_state from to now_id now_ts m st in
  let said := user (currentTranscription st) ++ input_piece m in
  let answered := s0 ++ output_piece m in
  currentTranscription st' = {| user := []; model := VString [] |}
  ∧ history st'
    = if bool_decide (said ≠ []) && bool_decide (answered ≠ [])
      then push_record
             {| Record.id := Number_toString now_id;
                Record.originalText := said;
                Record.translatedText := VString answered;
                Record.fromLang := Types.code from;
                Record.toLang := Types.code to;
                Record.timestamp := now_ts |} (history st)
      else history st.
Proof.
  intros Htc Hmodel. cbv zeta.
  unfold onmessage_state, input_piece, output_piece. rewrite Htc.
  destruct (inputTranscription m) as [ti|], (outputTranscription m) as [to'|];
    cbn [currentTranscription setCurrentTranscription user model history
         from_option setHistory];
    rewrite ?Hmodel, ?app_nil_r; cbn [ToString]; rewrite !truthy_VString;
    destruct (bool_decide _ && bool_decide _); done.
Qed.

(** X15: the messages of a turn add their transcription pieces to the
    two sides of the transcription and leave the history alone; the
    message that completes the turn empties the transcription, and when
    both sides have text it puts in front of the history one record of
    all the pieces of the turn, in their order, under the languages
    the session was started with. *)
Theorem turn_recorded (from to : Language)
    (ms : list (Z * Z * LiveServerMessage T)) (now_id now_ts : Z)
    (m : LiveServerMessage T) (st : AppState) (s0 : jsstring) :
  Forall (λ x, turnComplete x.2 = false) ms → turnComplete m = true →
  model (currentTranscription st) = VString s0 →
  let before := onmessage_all from to ms st in
  let st' := onmessage_state from to now_id now_ts m before in
  let said := user (currentTranscription st)
              ++ concat (input_piece <$> ms.*2) ++ input_piece m in
  let answered := s0 ++ concat (output_piece <$> ms.*2) ++ output_piece m in
  history before = history st
  ∧ currentTranscription st' = {| user := []; model := VString [] |}
  ∧ history st'
    = if bool_decide (said ≠ []) && bool_decide (answered ≠ [])
      then push_record
             {| Record.id := Number_toString now_id;
                Record.originalText := said;
                Record.translatedText := VString answered;
                Record.fromLang := Types.code from;
                Record.toLang := Types.code to;
                Record.timestamp := now_ts |} (history st)
      else history st.
Proof.
  intros Hms Htc Hmodel. cbv zeta.
  destruct (onmessage_all_pieces from to ms st s0 Hms Hmodel)
    as (Hh & Hu & Hv). cbv zeta in Hh, Hu, Hv.
  split; [done|].
  destruct (onmessage_state_turn from to now_id now_ts m _ _ Htc Hv)
    as [Hc Hturn]. cbv zeta in Hc, Hturn.
  split; [done|]. rewrite Hturn, Hu, Hh, <- !app_assoc. reflexivity.
Qed.

End TurnsMore.

Lemma turn_recorded_witness :
  let piece (i o : jsstring) (final : bool) : LiveServerMessage Z :=
    {| inputTranscription := Some (Some i);
       outputTranscription := Some (Some o);
       turnComplete := final; audio := None; interrupted := false |} in
  let fr := fromLang (initial_state true) in
  let en := toLang (initial_state true) in
  Record.originalText <$>
    head (history
            (onmessage_state fr en 3 3 (piece (utf16 "jour") (utf16 "lo") true)
               (onmessage_all fr en
                  [(1%Z, 1%Z, piece (utf16 "bon") (utf16 "hel") false)]
                  (initial_state true))))
  = Some (utf16 "bonjour").
Proof.
  intros piece fr en.
  destruct (turn_recorded fr en
              [(1%Z, 1%Z, piece (utf16 "bon") (utf16 "hel") false)] 3 3
              (piece (utf16 "jour") (utf16 "lo") true) (initial_state true) [])
    as (_ & _ & Hh).
  - by repeat constructor.
  - reflexivity.
  - reflexivity.
  - cbv zeta in Hh. rewrite Hh. by vm_compute.
Defined.

(** ** The scheduler: clock, gaps, stopped nodes *)

Section SchedulerMore.

Context {T : Type} `{NumberOrder T}.

Implicit Types (p : Playback T) (es : list (playback_event T)).

(** X16: when the messages are handled one after the other, the chunks
    that are started are those of the messages that carry audio, in
    their order, and none is started before the reading of the audio
    clock its handler took. *)
Theorem chunks_start_after_arrival (p : Playback T)
    (ms : list (T * LiveServerMessage T)) :
  Forall2 (λ s tm, audio tm.2 = Some (duration s) ∧ num_le tm.1 (when s))
    (started (playback_run p (ms ≫= λ tm, message_events tm.1 tm.2)).2)
    (filter (λ tm, is_Some (audio tm.2)) ms).
Proof.
  revert p. induction ms as [|[t m] ms IH]; intros p; [constructor|].
  rewrite bind_cons, playback_run_app. cbn [fst snd].
  unfold message_events at 1.
  destruct (audio m) as [d|] eqn:Haudio.
  - rewrite filter_cons_True by (cbn; rewrite Haudio; eauto).
    destruct (interrupted m); cbn;
      match goal with
      | |- context [playback_run ?q (mbind ?f ms)] =>
        specialize (IH q); destruct (playback_run q (mbind f ms)) as [p2 t2]
      end; cbn; (constructor; [|exact IH]); cbn;
      (split; [done | apply Math_max_r]).
  - rewrite filter_cons_False by (cbn; rewrite Haudio; by intros [? ?]).
    destruct (interrupted m); cbn;
      match goal with
      | |- context [playback_run ?q (mbind ?f ms)] =>
        specialize (IH q); destruct (playback_run q (mbind f ms)) as [p2 t2]
      end; cbn; exact IH.
Qed.

(** X17: of two chunks handled one after the other, the second starts
    exactly at the end of the first when its handler reads a clock that
    has not passed that end, and exactly at the clock it reads
    otherwise; [Math.max] being the larger of its two arguments. *)
Theorem back_to_back_chunks (p : Playback T) (t1 d1 t2 d2 : T) :
  (∀ a b, num_le b a → Math_max a b = a) →
  (∀ a b, num_le a b → Math_max a b = b) →
  ∃ s1 s2,
    (playback_run p [ChunkReceived t1; ChunkDecoded d1;
                     ChunkReceived t2; ChunkDecoded d2]).2
    = [Start s1; Start s2]
    ∧ duration s1 = d1 ∧ duration s2 = d2
    ∧ (num_le t2 (num_add (when s1) d1) → when s2 = num_add (when s1) d1)
    ∧ (num_le (num_add (when s1) d1) t2 → when s2 = t2).
Proof.
  intros Hl Hr. eexists _, _. cbn. split; [reflexivity|]. cbn.
  split; [done|]. split; [done|]. split; [apply Hl | apply Hr].
Qed.

Lemma playback_step_consistent p (e : playback_event T) :
  sources_consistent p → sources_consistent (playback_step p e).1.
Proof.
  intros [Hnd Hlt]. destruct e as [t|d|n|]; cbn.
  - done.
  - split; cbn.
    + rewrite fmap_app. apply NoDup_app. split; [done|]. split.
      * intros x Hx Hnew. apply list_elem_of_singleton in Hnew as ->.
        apply list_elem_of_fmap in Hx as (s & Hs & Hin).
        rewrite Forall_forall in Hlt. specialize (Hlt _ Hin).
        cbn in Hs. lia.
      * apply NoDup_singleton.
    + apply Forall_app. split.
      * eapply Forall_impl; [exact Hlt|]. cbn. lia.
      * repeat constructor.
  - split; cbn.
    + eapply sublist_NoDup; [exact Hnd|].
      apply fmap_sublist, sublist_filter.
    + apply Forall_forall. intros s [_ Hs]%list_elem_of_filter.
      rewrite Forall_forall in Hlt. by apply Hlt.
  - split; cbn; constructor.
Qed.

Lemma stopped_sources_app (t1 t2 : list (audio_effect T)) :
  stopped_sources (t1 ++ t2) = stopped_sources t1 ++ stopped_sources t2.
Proof. unfold stopped_sources. apply bind_app. Qed.

Lemma started_app (t1 t2 : list (audio_effect T)) :
  started (t1 ++ t2) = started t1 ++ started t2.
Proof. unfold started. apply omap_app. Qed.

Lemma playback_run_stopped es p :
  sources_consistent p →
  let tr := (playback_run p es).2 in
  NoDup (node <$> stopped_sources tr)
  ∧ Forall (λ s, s ∈ sources p ∨ (created p ≤ node s)%nat)
      (stopped_sources tr)
  ∧ Forall (λ s, s ∈ sources p ∨ s ∈ started tr) (stopped_sources tr).
Proof.
  revert p. induction es as [|e es IH]; intros p Hp; cbv zeta.
  { cbn. repeat split; constructor. }
  pose proof (playback_step_consistent p e Hp) as Hp1.
  specialize (IH (playback_step p e).1 Hp1). cbv zeta in IH.
  cbn [playback_run].
  destruct e as [t|d|n|]; cbn [playback_step fst snd chunk_decoded
    stopAllAudio] in *;
    revert IH; destruct (playback_run _ es) as [p2 t2];
    cbn [fst snd]; intros (Hnd & Hnew & Hfrom);
    rewrite stopped_sources_app, started_app.
  - cbn [app]. done.
  - cbn [app stopped_sources mbind list_bind] in *.
    change (stopped_sources [Start ?s]) with (@nil (Source T)).
    cbn [app]. split; [done|]. split.
    + eapply Forall_impl; [exact Hnew|]. cbn. intros s [Hs|Hs]; [|right; lia].
      apply elem_of_app in Hs as [Hs|Hs]; [by left|].
      apply list_elem_of_singleton in Hs as ->. right. cbn. lia.
    + eapply Forall_impl; [exact Hfrom|]. cbn. intros s [Hs|Hs].
      * apply elem_of_app in Hs as [Hs|Hs]; [by left|].
        apply list_elem_of_singleton in Hs as ->. right.
        apply elem_of_cons. by left.
      * right. apply elem_of_cons. by right.
  - cbn [app]. split; [done|]. split.
    + eapply Forall_impl; [exact Hnew|]. cbn. intros s [Hs|Hs]; [|by right].
      left. by apply list_elem_of_filter in Hs as [_ Hs].
    + eapply Forall_impl; [exact Hfrom|]. cbn. intros s [Hs|Hs]; [|by right].
      left. by apply list_elem_of_filter in Hs as [_ Hs].
  - change (stopped_sources [StopAll (sources p)]) with (sources p ++ []).
    rewrite app_nil_r. cbn [started omap list_omap app] in *.
    destruct Hp as [Hpnd Hplt]. split; [|split].
    + rewrite fmap_app. apply NoDup_app. split; [done|]. split; [|done].
      intros x Hx Hx'.
      apply list_elem_of_fmap in Hx as (s & -> & Hs).
      apply list_elem_of_fmap in Hx' as (s' & Heq & Hs').
      rewrite Forall_forall in Hplt. specialize (Hplt _ Hs).
      rewrite Forall_forall in Hnew. specialize (Hnew _ Hs').
      cbn in Hnew. destruct Hnew as [Hnil|Hge];
        [by apply elem_of_nil in Hnil | lia].
    + apply Forall_app. split.
      * apply Forall_forall. intros s Hs. by left.
      * eapply Forall_impl; [exact Hnew|]. cbn. intros s [Hs|Hs];
          [by apply elem_of_nil in Hs | by right].
    + apply Forall_app. split.
      * apply Forall_forall. intros s Hs. by left.
      * eapply Forall_impl; [exact Hfrom|]. cbn. intros s [Hs|Hs];
          [by apply elem_of_nil in Hs | by right].
Qed.

(** X18: in a run that begins with no source in the set, no node is
    stopped twice by [stopAllAudio], and every node it stops is one
    that the run has started. *)
Theorem no_node_stopped_twice (p : Playback T) (es : list (playback_event T)) :
  sources p = [] →
  let tr := (playback_run p es).2 in
  NoDup (node <$> stopped_sources tr)
  ∧ ∀ s, s ∈ stopped_sources tr → s ∈ started tr.
Proof.
  intros Hempty. cbv zeta.
  destruct (playback_run_stopped es p) as (Hnd & _ & Hfrom).
  { unfold sources_consistent. rewrite Hempty. split; constructor. }
  split; [done|]. intros s Hs. cbv zeta in Hfrom.
  rewrite Forall_forall in Hfrom.
  destruct (Hfrom s Hs) as [Hin|Hin]; [|done].
  rewrite Hempty in Hin. by apply elem_of_nil in Hin.
Qed.

End SchedulerMore.

Lemma chunks_start_after_arrival_witness :
  let p := {| nextStartTime := 0%Z; sources := []; created := 0 |} in
  let chunk (d : Z) : LiveServerMessage Z :=
    {| inputTranscription := None; outputTranscription := None;
       turnComplete := false; audio := Some d; interrupted := false |} in
  Forall2 (λ s tm, audio tm.2 = Some (duration s) ∧ (tm.1 ≤ when s)%Z)
    [{| node := 0; when := 5%Z; duration := 3%Z |};
     {| node := 1; when := 8%Z; duration := 2%Z |}]
    [(5%Z, chunk 3%Z); (6%Z, chunk 2%Z)].
Proof.
  intros p chunk.
  exact (chunks_start_after_arrival (H0 := Z_NumberOrder) p
           [(5%Z, chunk 3%Z); (6%Z, chunk 2%Z)]).
Defined.

Lemma back_to_back_chunks_witness :
  let p := {| nextStartTime := 0%Z; sources := []; created := 0 |} in
  ∃ s1 s2,
    (playback_run p [ChunkReceived 5%Z; ChunkDecoded 3%Z;
                     ChunkReceived 6%Z; ChunkDecoded 2%Z]).2
    = [Start s1; Start s2]
    ∧ when s2 = (when s1 + 3)%Z.
Proof.
  intros p.
  destruct (back_to_back_chunks p 5%Z 3%Z 6%Z 2%Z)
    as (s1 & s2 & Htr & _ & _ & Hgapless & _).
  - intros a b Hab. apply Z.max_l. exact Hab.
  - intros a b Hab. apply Z.max_r. exact Hab.
  - exists s1, s2. split; [exact Htr|]. apply Hgapless.
    injection Htr as <- _. cbn. lia.
Defined.

Lemma no_node_stopped_twice_witness :
  let p := {| nextStartTime := 0%Z; sources := []; created := 0 |} in
  let es := [ChunkReceived 5%Z; ChunkDecoded 3%Z; StopAllAudio;
             ChunkReceived 6%Z; ChunkDecoded 2%Z; StopAllAudio] in
  node <$> stopped_sources (playback_run p es).2 = [0%nat; 1%nat]
  ∧ NoDup (node <$> stopped_sources (playback_run p es).2).
Proof.
  intros p es. split; [reflexivity|].
  exact (proj1 (no_node_stopped_twice p es eq_refl)).
Defined.

(** ** Persistence across a reload *)

Section PersistenceMore.

(** X19: the two effects of the first render, run on a storage that
    holds nothing under the key, leave the history empty and store the
    text [[]]; run on a storage that the component has written, they
    restore the history that was written and leave the storage as it
    was, although the second effect first overwrites the saved value
    with the empty history. *)
Theorem mount_restores (onLine : bool) (st : AppState)
    (localStorage : gmap jsstring jsstring) :
  (localStorage !! HISTORY_KEY = None →
   mount onLine localStorage
   = Some (initial_state onLine, <[HISTORY_KEY := utf16 "[]"]> localStorage))
  ∧ (Forall well_typed (history st) →
     mount onLine (persist_history st localStorage)
     = Some (setHistory (λ _, history st) (initial_state onLine),
             persist_history st localStorage)
     ∧ persist_history (initial_state onLine)
         (persist_history st localStorage) !! HISTORY_KEY
       = Some (utf16 "[]")).
Proof.
  split.
  - intros Hnone. unfold mount, load_history. rewrite Hnone.
    cbn [mbind option_bind]. reflexivity.
  - intros Hh. split; [by apply mount_persisted|].
    unfold persist_history. by rewrite lookup_insert_eq.
Qed.

Lemma mount_restores_witness :
  let st := (handleOfflineTranslate 1 2 (utf16 "Merci")
               (initial_state true)).1 in
  mount false ∅ = Some (initial_state false, {[ HISTORY_KEY := utf16 "[]" ]})
  ∧ mount false (persist_history st ∅)
    = Some (setHistory (λ _, history st) (initial_state false),
            persist_history st ∅).
Proof.
  intros st.
  destruct (mount_restores false st ∅) as [Hfresh Hsaved].
  split.
  - rewrite Hfresh by apply lookup_empty. reflexivity.
  - apply Hsaved. repeat constructor. exists (utf16 "thank you").
    by vm_compute.
Defined.







End PersistenceMore.

(** ** What is on display after a stop *)

Section DisplayMore.

Context {T : Type} `{Number T}.


End DisplayMore.


(** ** A node that has ended *)

Section EndedMore.

Context {T : Type} `{Number T}.

(** X22: once [onended] has taken a node out of the set, no later
    [stopAllAudio] stops that node, however the run goes on. *)
Theorem ended_node_not_stopped (p : Playback T) (n : nat)
    (es : list (playback_event T)) :
  sources_consistent p → (n < created p)%nat →
  n ∉ node <$> stopped_sources (playback_run (source_ended n p) es).2.
Proof.
  intros Hp Hn Hin.
  pose proof (playback_step_consistent p (SourceEnded n) Hp) as Hp'.
  cbn [playback_step fst] in Hp'.
  destruct (playback_run_stopped es (source_ended n p) Hp') as (_ & Hnew & _).
  cbv zeta in Hnew. rewrite Forall_forall in Hnew.
  apply list_elem_of_fmap in Hin as (s & -> & Hs).
  destruct (Hnew s Hs) as [Hold|Hge].
  - cbn [source_ended sources] in Hold.
    apply list_elem_of_filter in Hold as [Hne _]. by apply Hne.
  - cbn [source_ended created] in Hge. lia.
Qed.

End EndedMore.

Lemma ended_node_not_stopped_witness :
  let p := (playback_run
              {| nextStartTime := 0%Z; sources := []; created := 0 |}
              [ChunkReceived 5%Z; ChunkDecoded 3%Z;
               ChunkReceived 6%Z; ChunkDecoded 2%Z]).1 in
  node <$> stopped_sources
             (playback_run (source_ended 0 p) [StopAllAudio]).2 = [1%nat]
  ∧ 0%nat ∉ node <$> stopped_sources
                      (playback_run (source_ended 0 p) [StopAllAudio]).2.
Proof.
  intros p. split; [reflexivity|].
  apply ended_node_not_stopped.
  - split; cbn.
    + apply (bool_decide_unpack _). reflexivity.
    + repeat constructor.
  - cbn. lia.
Defined.
